(** * preform: the form-state engine of [src/preform.tsx]

    A shallow embedding of the state container created by [asForm], of the
    transitions that the bound operations hand to React's [setState], of the
    validation coordinator ([validateField], [validate]), of the field
    life cycle of [useField] and of the submit wrappers.

    React's [setState (prev => next)] is embedded as the pure function
    [prev -> next]; a component closure over [state] is embedded as an
    explicit [state] argument.  A call of a validator or of a submit
    callback is embedded by how it ends ([Returns] or [Throws]), now or
    through a promise; the time a promise takes is embedded by the
    operations that may come between the start of a validation and its
    settling in the transition system at the end of the definitions. *)

From stdpp Require Import gmap strings list fin_maps pretty.

(** ** JavaScript values *)

(** What an object answers to [instanceof Error], to [typeof] and to the
    string conversion done by [new Error(x)]. *)
Inductive ObjClass :=
  | Ordinary (str : string)         (* a plain object or array; [str] is what its toString yields *)
  | ErrorInstance (message : string) (* an instance of Error *)
  | Callable (src : string)         (* a function; [src] is its source text *)
  | Bare.                           (* an object with no conversion to a string, as Object.create(null) *)

(** The values a form field, a validator result or a thrown failure can be
    ([any] in the source).  Numbers are NaN and the safe integers, those
    of magnitude below 2^53, which the engine prints in decimal digits
    ([VNum n] stands for a number only for such an [n]); objects are
    references, compared by address; symbols are compared by their
    identity. *)
Inductive JsValue :=
  | VUndefined
  | VNull
  | VBool (b : bool)
  | VNum (n : Z)
  | VNaN
  | VStr (s : string)
  | VSymbol (id : nat)
  | VObj (addr : nat) (cls : ObjClass).

Inductive JsType :=
  | TUndefined | TObject | TBoolean | TNumber | TString | TFunction | TSymbol.

Definition typeof (v : JsValue) : JsType :=
  match v with
  | VUndefined => TUndefined
  | VNull => TObject
  | VBool _ => TBoolean
  | VNum _ | VNaN => TNumber
  | VStr _ => TString
  | VSymbol _ => TSymbol
  | VObj _ (Callable _) => TFunction
  | VObj _ _ => TObject
  end.

Global Instance JsType_eq_dec : EqDecision JsType.
Proof. solve_decision. Defined.
Global Instance ObjClass_eq_dec : EqDecision ObjClass.
Proof. solve_decision. Defined.
Global Instance JsValue_eq_dec : EqDecision JsValue.
Proof. solve_decision. Defined.

(** [!v] is [negb (truthy v)]. *)
Definition truthy (v : JsValue) : bool :=
  match v with
  | VUndefined | VNull | VNaN => false
  | VBool b => b
  | VNum n => negb (n =? 0)%Z
  | VStr s => negb (String.eqb s "")
  | VSymbol _ | VObj _ _ => true
  end.

(** [a === b]: primitives by value (NaN equals nothing), objects by address. *)
Definition strict_eq (a b : JsValue) : bool :=
  match a, b with
  | VUndefined, VUndefined => true
  | VNull, VNull => true
  | VBool x, VBool y => Bool.eqb x y
  | VNum x, VNum y => (x =? y)%Z
  | VStr x, VStr y => String.eqb x y
  | VSymbol x, VSymbol y => Nat.eqb x y
  | VObj x _, VObj y _ => Nat.eqb x y
  | _, _ => false
  end.

(** The string conversion applied by [new Error(x)] to its argument;
    [None]: the conversion throws a TypeError (a symbol, an object
    without conversion). *)
Definition to_string (v : JsValue) : option string :=
  match v with
  | VUndefined => Some "undefined"
  | VNull => Some "null"
  | VBool true => Some "true"
  | VBool false => Some "false"
  | VNum n => Some (pretty n)
  | VNaN => Some "NaN"
  | VStr s => Some s
  | VSymbol _ => None
  | VObj _ (Ordinary str) => Some str
  | VObj _ (ErrorInstance m) => Some ("Error: " +:+ m)
  | VObj _ (Callable src) => Some src
  | VObj _ Bare => None
  end.

(** An Error object as the engine stores it in [errors]; the engine never
    compares two of them, so only the message is kept. *)
Record JsError := { message : string }.

Global Instance JsError_eq_dec : EqDecision JsError.
Proof. solve_decision. Defined.

(** How a call or an awaited promise ends. *)
Inductive Completion (A : Type) :=
  | Returns (a : A)
  | Throws (failure : JsValue).
Arguments Returns {A} a.
Arguments Throws {A} failure.

(** The TypeError the engine raises when a value has no conversion to a
    string.  It is an instance of Error; the address it is allocated at
    is never compared with another. *)
Definition TypeError (message : string) : JsValue := VObj 0 (ErrorInstance message).

Definition conversion_failure (x : JsValue) : JsValue :=
  match x with
  | VSymbol _ => TypeError "Cannot convert a Symbol value to a string"
  | _ => TypeError "Cannot convert object to primitive value"
  end.

(** [new Error(x)]: the message is the string conversion of [x], and the
    empty string when [x] is undefined; the call throws when [x] has no
    conversion. *)
Definition new_Error (x : JsValue) : Completion JsError :=
  match x with
  | VUndefined => Returns {| message := "" |}
  | _ =>
      match to_string x with
      | Some m => Returns {| message := m |}
      | None => Throws (conversion_failure x)
      end
  end.

(** [error instanceof Error ? error : new Error(error)] *)
Definition as_Error (error : JsValue) : Completion JsError :=
  match error with
  | VObj _ (ErrorInstance m) => Returns {| message := m |}
  | _ => new_Error error
  end.

(** ** The data model (interfaces of the source) *)

Abbreviation FormValues := (gmap string JsValue).
Abbreviation DirtyFields := (gmap string bool).

(** An entry of [errors].  The declared type is [Error]; the single-field
    path can also store a caught value as it is, which is no Error. *)
Inductive ErrorEntry :=
  | IsError (e : JsError)
  | Caught (thrown : JsValue).

Global Instance ErrorEntry_eq_dec : EqDecision ErrorEntry.
Proof. solve_decision. Defined.

Abbreviation FormErrors := (gmap string ErrorEntry).

Record FormState := {
  values : FormValues;
  valid : bool;
  invalid : bool;
  loading : bool;
  submitted : bool;
  dirty : bool;
  pristine : bool;
  dirtyFields : DirtyFields;
  errors : FormErrors
}.

Record ValidateSettings := {
  makeSubmitted : bool;
  makePristine : bool
}.

Record SetValueSettings := { keepPristine : bool }.

(** Objects used as maps ([values], [errors], [dirtyFields],
    [fieldValidators]) are finite maps from field names to what the
    object holds under its own keys. *)

(** The names every plain object inherits from [Object.prototype].  For
    these, [name in obj] holds and [obj[name]] reads the inherited member
    when the object has no key of its own by that name.  The lookups of
    this development ([has_key], [get], [fieldPristine], the registry's
    [!!]) are lookups of own keys, and an assignment [obj[name] = v] is
    an insertion: they are those of the source for every other name
    (the assignment also for the inherited names that are plain members,
    all but ["__proto__"], see [assign_true]), and the properties that
    depend on them are stated for the names of [own_name]. *)
Definition Object_prototype_names : list string :=
  ["constructor"; "__defineGetter__"; "__defineSetter__"; "hasOwnProperty";
   "__lookupGetter__"; "__lookupSetter__"; "isPrototypeOf"; "propertyIsEnumerable";
   "toString"; "valueOf"; "__proto__"; "toLocaleString"].

(** A field name that no plain object inherits. *)
Definition own_name (field : string) : Prop :=
  bool_decide (field ∈ Object_prototype_names) = false.

(** [Object.keys(o)]; the engine uses the keys only as a set of distinct
    names, never their order. *)
Definition Object_keys {A} (o : gmap string A) : list string :=
  (map_to_list o).*1.

(** [o[k]]: a missing key reads as undefined (for a name of [own_name]). *)
Definition get (o : FormValues) (k : string) : JsValue :=
  default VUndefined (o !! k).

(** [k in o], for a name [k] that [o] does not inherit ([own_name]). *)
Definition has_key {A} (k : string) (o : gmap string A) : bool :=
  bool_decide (is_Some (o !! k)).

(** [!Object.keys(o).length] *)
Definition no_keys {A} (o : gmap string A) : bool :=
  Nat.eqb (length (Object_keys o)) 0.

(** ** [asForm]: the state and the transitions of the bound operations *)

(** The argument of [useState] (lines 149-159). *)
Definition initialState : FormState := {|
  values := ∅;
  valid := true;
  invalid := false;
  loading := false;
  errors := ∅;
  dirtyFields := ∅;
  dirty := false;
  submitted := true;
  pristine := true
|}.

(** [makeFormPristine] (lines 282-293). *)
Definition makeFormPristine (previousState : FormState) : FormState := {|
  values := values previousState;
  valid := valid previousState;
  invalid := invalid previousState;
  loading := loading previousState;
  errors := errors previousState;
  submitted := true;
  dirty := false;
  pristine := true;
  dirtyFields := ∅
|}.

(** [reset] (lines 295-310): [setState] of a constant. *)
Definition reset (_ : FormState) : FormState := {|
  values := ∅;
  valid := true;
  invalid := false;
  loading := false;
  errors := ∅;
  dirtyFields := ∅;
  dirty := false;
  submitted := true;
  pristine := true
|}.

(** [makeFormSubmitted] (lines 312-320). *)
Definition makeFormSubmitted (previousState : FormState) : FormState := {|
  values := values previousState;
  valid := valid previousState;
  invalid := invalid previousState;
  loading := loading previousState;
  errors := errors previousState;
  dirty := dirty previousState;
  pristine := pristine previousState;
  dirtyFields := dirtyFields previousState;
  submitted := true
|}.

(** [newState.dirtyFields[key] = true] (line 376), an assignment to a
    plain object.  The name ["__proto__"] is the accessor inherited from
    [Object.prototype]: unless the object has a property of its own by
    that name, the assignment calls the setter, which ignores a value
    that is not an object, and no property is added. *)
Definition assign_true (dirtyFields : DirtyFields) (key : string) : DirtyFields :=
  if bool_decide (key = "__proto__" ∧ dirtyFields !! key = None) then dirtyFields
  else <[key := true]> dirtyFields.

(** [setValues] (lines 354-383).  [None]: the early return, nothing is
    handed to [setState].  The spread of [fields] copies every own key,
    ["__proto__"] included. *)
Definition setValues (fields : FormValues) (settings : SetValueSettings)
  : option (FormState -> FormState) :=
  let keys := Object_keys fields in
  if Nat.eqb (length keys) 0 then None
  else Some (fun previousState =>
    let newValues := fields ∪ values previousState in
    if keepPristine settings then {|
      values := newValues;
      valid := valid previousState;
      invalid := invalid previousState;
      loading := loading previousState;
      errors := errors previousState;
      submitted := submitted previousState;
      dirty := dirty previousState;
      pristine := pristine previousState;
      dirtyFields := dirtyFields previousState
    |} else {|
      values := newValues;
      valid := valid previousState;
      invalid := invalid previousState;
      loading := loading previousState;
      errors := errors previousState;
      submitted := false;
      dirty := true;
      pristine := false;
      dirtyFields := foldl assign_true (dirtyFields previousState) keys
    |}).

(** [setValue] (lines 385-408). *)
Definition setValue (field : string) (value : JsValue) (settings : SetValueSettings)
  (previousState : FormState) : FormState :=
  let newValues := <[field := value]> (values previousState) in
  if keepPristine settings then {|
    values := newValues;
    valid := valid previousState;
    invalid := invalid previousState;
    loading := loading previousState;
    errors := errors previousState;
    submitted := submitted previousState;
    dirty := dirty previousState;
    pristine := pristine previousState;
    dirtyFields := dirtyFields previousState
  |} else {|
    values := newValues;
    valid := valid previousState;
    invalid := invalid previousState;
    loading := loading previousState;
    errors := errors previousState;
    submitted := false;
    dirty := true;
    pristine := false;
    dirtyFields := <[field := true]> (dirtyFields previousState)
  |}.

(** ** Validators *)

(** What a validator (or a submit callback) hands back to its caller:
    it ends synchronously, or it returns a promise that later resolves
    ([Returns]) or rejects ([Throws]). *)
Inductive Response :=
  | Sync (c : Completion JsValue)
  | Promised (c : Completion JsValue).

(** [await r] inside an async function: the value, or the failure raised
    at the await. *)
Definition await (r : Response) : Completion JsValue :=
  match r with
  | Sync c => c
  | Promised c => c
  end.

Abbreviation FormFieldValidator := (JsValue -> FormValues -> Response).

(** [fieldValidators]: a missing key reads as undefined, [Some None] is
    the stored null. *)
Abbreviation FormFieldValidators := (gmap string (option FormFieldValidator)).

(** ** The validation coordinator (the effect of lines 170-280) *)

(** [validatorsRef.current.validateField] (lines 171-181).  The function
    is declared with the one parameter [field]; a second argument given
    by a caller ([_values]) is not read, the values are those of the
    [state] the effect closed over. *)
Definition validateField (fieldValidators : FormFieldValidators) (state : FormState)
  (field : string) (_values : FormValues) : Completion (option JsError) :=
  match fieldValidators !! field with
  | Some (Some fieldValidator) =>
      match await (fieldValidator (get (values state) field) (values state)) with
      | Throws failure => Throws failure
      | Returns error =>
          if truthy error then
            match as_Error error with
            | Returns error' => Returns (Some error')
            | Throws failure => Throws failure
            end
          else Returns None
      end
  | _ => Returns None
  end.

Record FieldResult := { key : string; error : JsError }.

(** One branch of the fan-out (lines 194-212): an async function, whose
    promise resolves with a result or with null, and rejects when its
    catch clause itself throws (the [new Error(error)] of line 209). *)
Definition fieldValidation (fieldValidators : FormFieldValidators) (state : FormState)
  (immutableValues : FormValues) (key : string) : Completion (option FieldResult) :=
  match validateField fieldValidators state key immutableValues with
  | Returns (Some error) => Returns (Some {| key := key; error := error |})
  | Returns None => Returns None
  | Throws error =>
      match as_Error error with
      | Returns error' => Returns (Some {| key := key; error := error' |})
      | Throws failure => Throws failure
      end
  end.

Definition fieldValidations (fieldValidators : FormFieldValidators) (state : FormState)
  : list (Completion (option FieldResult)) :=
  let immutableValues := values state in
  map (fieldValidation fieldValidators state immutableValues) (Object_keys (values state)).

(** [Promise.all]: the branches settle in the order [order] (indices into
    [tasks]); each result goes to the slot of its branch.  The promise is
    fulfilled once every slot is filled, with the slots in the order of
    [tasks]; [None] means it is still pending. *)
Definition settle {A} (tasks : list A) (slots : list (option A)) (i : nat)
  : list (option A) :=
  match tasks !! i with
  | Some r => <[i := Some r]> slots
  | None => slots
  end.

Definition Promise_all {A} (tasks : list A) (order : list nat) : option (list A) :=
  mapM id (foldl (settle tasks) (replicate (length tasks) None) order).

(** [Promise.all] over branches that may reject: it rejects as soon as a
    rejecting branch settles, with that branch's failure, and is
    fulfilled with the results once every branch has resolved. *)
Definition rejection {A} (tasks : list (Completion A)) (i : nat) : option JsValue :=
  match tasks !! i with
  | Some (Throws failure) => Some failure
  | _ => None
  end.

Definition fulfilled {A} (c : Completion A) : option A :=
  match c with
  | Returns a => Some a
  | Throws _ => None
  end.

Definition Promise_all_settled {A} (tasks : list (Completion A)) (order : list nat)
  : option (Completion (list A)) :=
  match omap (rejection tasks) order with
  | failure :: _ => Some (Throws failure)
  | [] =>
      settled ← Promise_all tasks order;
      results ← mapM fulfilled settled;
      Some (Returns results)
  end.

(** The first [setState] of [validate] (lines 186-192). *)
Definition validate_started (prevState : FormState) : FormState := {|
  values := values prevState;
  submitted := submitted prevState;
  dirty := dirty prevState;
  pristine := pristine prevState;
  dirtyFields := dirtyFields prevState;
  valid := true;
  invalid := false;
  loading := true;
  errors := ∅
|}.

(** The body of the [forEach] of lines 221-226, on the pair of
    [hasErrors] and [errors]. *)
Definition collect (acc : bool * FormErrors) (result : option FieldResult)
  : bool * FormErrors :=
  match result with
  | Some r => (true, <[key r := IsError (error r)]> acc.2)
  | None => acc
  end.

(** Lines 218-226: [hasErrors] and [errors]. *)
Definition aggregate (results : list (option FieldResult)) : bool * FormErrors :=
  foldl collect (false, ∅) results.

(** Lines 228-278, shared by the [setState] argument (applied to the
    store's [prevState]) and by the returned snapshot (applied to the
    closed-over [state]). *)
Definition validate_outcome (settings : ValidateSettings)
  (results : list (option FieldResult)) (base : FormState) : FormState :=
  let '(hasErrors, errors') := aggregate results in
  if hasErrors then {|
    values := values base;
    submitted := submitted base;
    dirty := dirty base;
    pristine := pristine base;
    dirtyFields := dirtyFields base;
    valid := false;
    invalid := true;
    loading := false;
    errors := errors'
  |} else if makePristine settings then {|
    values := values base;
    valid := true;
    invalid := false;
    loading := false;
    errors := ∅;
    pristine := true;
    dirty := false;
    dirtyFields := ∅;
    submitted := true
  |} else if makeSubmitted settings then {|
    values := values base;
    dirty := dirty base;
    pristine := pristine base;
    dirtyFields := dirtyFields base;
    valid := true;
    invalid := false;
    loading := false;
    errors := ∅;
    submitted := true
  |} else {|
    values := values base;
    submitted := submitted base;
    dirty := dirty base;
    pristine := pristine base;
    dirtyFields := dirtyFields base;
    valid := true;
    invalid := false;
    loading := false;
    errors := ∅
  |}.

(** What one call of [validate] does: the two transitions it hands to
    [setState], in order, and the snapshot its promise resolves to. *)
Record ValidateRun := {
  run_started : FormState -> FormState;
  run_completed : FormState -> FormState;
  run_returned : FormState
}.

(** [validatorsRef.current.validate] (lines 182-279), for the branches
    settling in the order [order]: pending ([None]), resolved, or
    rejected with the failure of [Promise.all] (line 194), in which case
    [validate_started] is the one transition it handed to [setState]. *)
Definition validate (fieldValidators : FormFieldValidators) (state : FormState)
  (settings : ValidateSettings) (order : list nat) : option (Completion ValidateRun) :=
  settled ← Promise_all_settled (fieldValidations fieldValidators state) order;
  match settled with
  | Returns results =>
      Some (Returns {|
        run_started := validate_started;
        run_completed := validate_outcome settings results;
        run_returned := validate_outcome settings results state
      |})
  | Throws failure => Some (Throws failure)
  end.

(** ** [useField]: the life cycle of a field *)

(** Line 421. *)
Definition valueCanUpdateSafely (val : JsValue) : bool :=
  negb (bool_decide (typeof val = TObject)) || strict_eq val VNull.

(** Line 438: [!state.dirtyFields[field]], for a name that the object
    does not inherit ([own_name]). *)
Definition fieldPristine (state : FormState) (field : string) : bool :=
  negb (default false (dirtyFields state !! field)).

(** The condition of the seeding effect (lines 495-505), read on the
    [state] of the render the effect belongs to. *)
Definition shouldSeed (state : FormState) (field : string) (initialValue : JsValue)
  (forceInitialValue : bool) : bool :=
  negb (has_key field (values state))
  || (fieldPristine state field
      && negb (strict_eq (get (values state) field) initialValue)
      && (forceInitialValue
          || (valueCanUpdateSafely (get (values state) field)
              && valueCanUpdateSafely initialValue))).

(** The seeding effect (lines 494-508): the transition it hands to
    [setState], if any. *)
Definition seedEffect (state : FormState) (field : string) (initialValue : JsValue)
  (forceInitialValue : bool) : option (FormState -> FormState) :=
  if shouldSeed state field initialValue forceInitialValue
  then Some (setValue field initialValue {| keepPristine := true |})
  else None.

(** The transition of the cleanup of lines 515-539. *)
Definition pruneField (field : string) (previousState : FormState) : FormState :=
  let newValues := delete field (values previousState) in
  let newErrors := delete field (errors previousState) in
  let newDirtyFields := delete field (dirtyFields previousState) in
  let newPristine := no_keys newDirtyFields in {|
    valid := valid previousState;
    invalid := invalid previousState;
    loading := loading previousState;
    submitted := submitted previousState;
    pristine := newPristine;
    dirty := negb newPristine;
    dirtyFields := newDirtyFields;
    values := newValues;
    errors := newErrors
  |}.

(** The effect of lines 510-540: the cleanup it returns, as the
    transition the cleanup hands to [setState] ([None] for the cleanup
    [() => {}] returned when the field is already a key of the values). *)
Definition cleanupEffect (state : FormState) (field : string)
  : option (FormState -> FormState) :=
  if has_key field (values state) then None else Some (pruneField field).

(** The field's [makePristine] (lines 542-556). *)
Definition fieldMakePristine (field : string) (previousState : FormState) : FormState :=
  let newDirtyFields := delete field (dirtyFields previousState) in
  let newPristine := no_keys newDirtyFields in {|
    values := values previousState;
    valid := valid previousState;
    invalid := invalid previousState;
    loading := loading previousState;
    submitted := submitted previousState;
    errors := errors previousState;
    pristine := newPristine;
    dirty := negb newPristine;
    dirtyFields := newDirtyFields
  |}.

(** A caught value stored under [errors] as it is (line 486). *)
Definition stored_as_is (thrown : JsValue) : ErrorEntry :=
  match thrown with
  | VObj _ (ErrorInstance m) => IsError {| message := m |}
  | _ => Caught thrown
  end.

(** [entry.message], as a field component reads it ([None]: undefined). *)
Definition entry_message (entry : ErrorEntry) : option string :=
  match entry with
  | IsError e => Some (message e)
  | Caught _ => None
  end.

(** The field's [validate] (lines 456-492): the transition handed to
    [setState] once [validateField] has settled with [outcome]. *)
Definition fieldValidate_commit (field : string) (outcome : Completion (option JsError))
  (previousState : FormState) : FormState :=
  match outcome with
  | Returns (Some error) => {|
      values := values previousState;
      loading := loading previousState;
      submitted := submitted previousState;
      dirty := dirty previousState;
      pristine := pristine previousState;
      dirtyFields := dirtyFields previousState;
      errors := <[field := IsError error]> (errors previousState);
      valid := false;
      invalid := negb false
    |}
  | Returns None =>
      let newErrors := delete field (errors previousState) in
      let valid' := no_keys newErrors in {|
      values := values previousState;
      loading := loading previousState;
      submitted := submitted previousState;
      dirty := dirty previousState;
      pristine := pristine previousState;
      dirtyFields := dirtyFields previousState;
      errors := newErrors;
      valid := valid';
      invalid := negb valid'
    |}
  | Throws error => {|
      values := values previousState;
      loading := loading previousState;
      submitted := submitted previousState;
      dirty := dirty previousState;
      pristine := pristine previousState;
      dirtyFields := dirtyFields previousState;
      errors := <[field := stored_as_is error]> (errors previousState);
      valid := false;
      invalid := true
    |}
  end.

(** The call made by the field's [validate] (lines 457-461): the
    snapshot [immutableValues] is the copy of the values of the [state]
    that the memoized callback closed over. *)
Definition fieldValidate_call
  (formValidators_validateField : string -> FormValues -> Completion (option JsError))
  (state : FormState) (field : string) : Completion (option JsError) :=
  let immutableValues := values state in
  formValidators_validateField field immutableValues.

(** ** The form context and [useFormApi] *)

(** The nullary bound operations, each by the transition it hands to
    [setState]; the three types are the same type, as in the source. *)
Definition MakePristine := FormState -> FormState.
Definition Reset := FormState -> FormState.
Definition MakeSubmitted := FormState -> FormState.

Definition ValidateAll := ValidateSettings -> list nat -> option (Completion ValidateRun).
Definition SetFieldValue := string -> JsValue -> SetValueSettings -> FormState -> FormState.
Definition SetValues := FormValues -> SetValueSettings -> option (FormState -> FormState).
Definition Dispatch := (FormState -> FormState) -> FormState -> FormState.

Module FormValidators.
Record t := {
  validate : ValidateAll;
  validateField : string -> FormValues -> Completion (option JsError);
  fieldValidators : FormFieldValidators
}.
End FormValidators.

(** The tuple type of lines 132-142. *)
Definition FormContextValue : Type :=
  FormState * FormValidators.t * Dispatch * ValidateAll * SetFieldValue
  * SetValues * MakePristine * MakeSubmitted * Reset.

(** [validatorsRef.current] after the effect of lines 170-280 ran for
    the render whose state is [closed]. *)
Definition validatorsRef_current (fieldValidators : FormFieldValidators) (closed : FormState)
  : FormValidators.t := {|
  FormValidators.validate := validate fieldValidators closed;
  FormValidators.validateField := validateField fieldValidators closed;
  FormValidators.fieldValidators := fieldValidators
|}.

(** Lines 410-412, for a render with state [state]. *)
Definition formContextValue (fieldValidators : FormFieldValidators)
  (closed state : FormState) : FormContextValue :=
  let current := validatorsRef_current fieldValidators closed in
  (state, current, (fun action prev => action prev),
   (fun settings => FormValidators.validate current settings),
   setValue, setValues, makeFormPristine, makeFormSubmitted, reset).

Module UseFormApiResponse.
Record t := {
  formState : FormState;
  validate : ValidateAll;
  setValue : SetFieldValue;
  setValues : SetValues;
  makePristine : MakePristine;
  reset : Reset
}.
End UseFormApiResponse.

(** [useFormApi] (lines 580-596): the array pattern of line 586 binds
    eight positions, the ninth element of the context is not bound. *)
Definition useFormApi (ctx : FormContextValue) : UseFormApiResponse.t :=
  let '(state, _, _, validate, setValue, setValues, makePristine, reset, _) := ctx in {|
    UseFormApiResponse.formState := state;
    UseFormApiResponse.validate := validate;
    UseFormApiResponse.setValue := setValue;
    UseFormApiResponse.setValues := setValues;
    UseFormApiResponse.makePristine := makePristine;
    UseFormApiResponse.reset := reset
  |}.

(** ** The submit wrappers *)

Record SubmitSettings := {
  validateSettings :> ValidateSettings;
  shouldPreventDefault : bool
}.


(** The event handed to the handler, by the capabilities it has. *)
Record SyntheticEvent := {
  preventDefault : bool;
  stopPropagation : bool
}.

Record FormSettings := {
  onSubmitError : option (FormState -> Completion JsValue)
}.

(** What a handler does that its environment can observe, in order. *)
Inductive Event :=
  | PreventDefault
  | StopPropagation
  | SetState (action : FormState -> FormState)
  | Callback (values : FormValues)
  | OnSubmitError (formState : FormState).

(** Lines 326-333 and 631-638. *)
Definition suppress (event : option SyntheticEvent) (shouldPreventDefault : bool)
  : list Event :=
  match event with
  | Some event =>
      if shouldPreventDefault then
        (if preventDefault event then [PreventDefault] else [])
        ++ (if stopPropagation event then [StopPropagation] else [])
      else []
  | None => []
  end.

(** [validate()] called with no argument: both settings default to false. *)
Definition noSettings : ValidateSettings :=
  {| makePristine := false; makeSubmitted := false |}.

(** The handler returned by [asSubmit] (lines 322-347): the trace of one
    invocation and how the handler's promise ends; [None] while the
    validation has not settled.  A rejected [validate()] ends the handler
    at the await of line 333. *)
Definition asSubmit (fieldValidators : FormFieldValidators) (closed : FormState)
  (formSettings : option FormSettings)
  (callback : FormValues -> Response) (settings : SubmitSettings)
  (event : option SyntheticEvent) (order : list nat)
  : option (list Event * Completion unit) :=
  let before := suppress event (shouldPreventDefault settings) in
  settled ← FormValidators.validate (validatorsRef_current fieldValidators closed) noSettings order;
  match settled with
  | Throws failure => Some (before ++ [SetState validate_started], Throws failure)
  | Returns run =>
    let formState := run_returned run in
    let validated := before ++ [SetState (run_started run); SetState (run_completed run)] in
    if valid formState then
      match await (callback (values formState)) with
      | Throws failure => Some (validated ++ [Callback (values formState)], Throws failure)
      | Returns _ =>
          if makePristine settings then
            Some (validated ++ [Callback (values formState); SetState makeFormPristine],
                  Returns ())
          else if makeSubmitted settings then
            Some (validated ++ [Callback (values formState); SetState makeFormSubmitted],
                  Returns ())
          else Some (validated ++ [Callback (values formState)], Returns ())
      end
    else
      match formSettings with
      | Some {| onSubmitError := Some hook |} =>
          Some (validated ++ [OnSubmitError formState],
                match hook formState with
                | Returns _ => Returns ()
                | Throws failure => Throws failure
                end)
      | _ => Some (validated, Returns ())
      end
  end.

(** The handler returned by [useSubmit] (lines 619-651); line 625 binds
    positions 3, 6 and 7 of the context. *)
Definition useSubmit (ctx : FormContextValue) (formSettings : option FormSettings)
  (callback : FormValues -> Response) (settings : SubmitSettings)
  (event : option SyntheticEvent) (order : list nat)
  : option (list Event * Completion unit) :=
  let '(_, _, _, validate, _, _, makeFormPristine, makeFormSubmitted, _) := ctx in
  let before := suppress event (shouldPreventDefault settings) in
  settled ← validate noSettings order;
  match settled with
  | Throws failure => Some (before ++ [SetState validate_started], Throws failure)
  | Returns run =>
    let formState := run_returned run in
    let validated := before ++ [SetState (run_started run); SetState (run_completed run)] in
    if valid formState then
      match await (callback (values formState)) with
      | Throws failure => Some (validated ++ [Callback (values formState)], Throws failure)
      | Returns _ =>
          if makePristine settings then
            Some (validated ++ [Callback (values formState); SetState makeFormPristine],
                  Returns ())
          else if makeSubmitted settings then
            Some (validated ++ [Callback (values formState); SetState makeFormSubmitted],
                  Returns ())
          else Some (validated ++ [Callback (values formState)], Returns ())
      end
    else
      match formSettings with
      | Some {| onSubmitError := Some hook |} =>
          Some (validated ++ [OnSubmitError formState],
                match hook formState with
                | Returns _ => Returns ()
                | Throws failure => Throws failure
                end)
      | _ => Some (validated, Returns ())
      end
  end.

(** ** The form as a transition system

    One form context: the React state, what the coordinator's effect
    closed over, the validator registry, the mounted [useField]
    instances and the validations that have started and not yet
    settled. *)

(** A mounted [useField]: its field and the [state] of the render whose
    closures it holds (the cleanup of lines 510-540 and the memoized
    [validate] of lines 456-492). *)
Record Instance := {
  inst_field : string;
  inst_state : FormState
}.

Inductive InFlight :=
  | WholeForm (settings : ValidateSettings) (tasks : list (Completion (option FieldResult)))
  | SingleField (field : string) (outcome : Completion (option JsError)).

Record World := {
  store : FormState;                (* the state held by [useState] *)
  closed : FormState;               (* the [state] that [validateField] and [validate] closed over *)
  fresh_values : bool;              (* [store.values] is a newer object than [closed.values] *)
  registry : FormFieldValidators;   (* [validatorsRef.current.fieldValidators] *)
  instances : list Instance;
  inflight : list InFlight
}.

Definition initialWorld : World := {|
  store := initialState;
  closed := initialState;
  fresh_values := false;
  registry := ∅;
  instances := [];
  inflight := []
|}.

Inductive Op :=
  | Render
  | Mount (field : string) (initialValue : JsValue)
          (validator : option FormFieldValidator) (forceInitialValue : bool)
  | Reseed (field : string) (initialValue : JsValue) (forceInitialValue : bool)
  | Unmount (i : nat)
  | SetValue (field : string) (value : JsValue) (settings : SetValueSettings)
  | SetValuesOp (fields : FormValues) (settings : SetValueSettings)
  | MakeFormPristine
  | MakeFormSubmitted
  | FieldMakePristine (field : string)
  | ResetOp
  | ApiReset
  | Validate (settings : ValidateSettings)
  | FieldValidate (i : nat)
  | Settle (i : nat) (order : list nat)
  | MountBeside (i : nat) (field : string) (initialValue : JsValue)
                (validator : option FormFieldValidator) (forceInitialValue : bool).

(** [setState action], with [fresh]: the action builds a new values object. *)
Definition dispatch (action : FormState -> FormState) (fresh : bool) (w : World) : World := {|
  store := action (store w);
  closed := closed w;
  fresh_values := fresh || fresh_values w;
  registry := registry w;
  instances := instances w;
  inflight := inflight w
|}.

Definition dispatch_opt (action : option (FormState -> FormState)) (w : World) : World :=
  match action with
  | Some action => dispatch action true w
  | None => w
  end.

(** What the settling of an in-flight validation hands to [setState];
    [None] while [Promise.all] is pending, [Some None] when it rejected:
    [validate] then ends at line 194 and calls [setState] no more. *)
Definition commit (entry : InFlight) (order : list nat)
  : option (option (FormState -> FormState)) :=
  match entry with
  | WholeForm settings tasks =>
      settled ← Promise_all_settled tasks order;
      match settled with
      | Returns results => Some (Some (validate_outcome settings results))
      | Throws _ => Some None
      end
  | SingleField field outcome => Some (Some (fieldValidate_commit field outcome))
  end.

Definition step (op : Op) (w : World) : World :=
  match op with
  | Render =>
      (* the effect of lines 170-280 runs again when [state.values] is a new object *)
      if fresh_values w then {|
        store := store w; closed := store w; fresh_values := false;
        registry := registry w; instances := instances w; inflight := inflight w
      |} else w
  | Mount field initialValue validator forceInitialValue =>
      (* the effects of [useField], in the order of their declaration,
         for a render that read the current state *)
      let state := store w in
      dispatch_opt (seedEffect state field initialValue forceInitialValue) {|
        store := store w; closed := closed w; fresh_values := fresh_values w;
        registry := <[field := validator]> (registry w);
        instances := instances w ++ [{| inst_field := field; inst_state := state |}];
        inflight := inflight w
      |}
  | Reseed field initialValue forceInitialValue =>
      dispatch_opt (seedEffect (store w) field initialValue forceInitialValue) w
  | Unmount i =>
      match instances w !! i with
      | Some inst =>
          dispatch_opt (cleanupEffect (inst_state inst) (inst_field inst)) {|
            store := store w; closed := closed w; fresh_values := fresh_values w;
            registry := delete (inst_field inst) (registry w);
            instances := delete i (instances w);
            inflight := inflight w
          |}
      | None => w
      end
  | SetValue field value settings => dispatch (setValue field value settings) true w
  | SetValuesOp fields settings => dispatch_opt (setValues fields settings) w
  | MakeFormPristine => dispatch makeFormPristine false w
  | MakeFormSubmitted => dispatch makeFormSubmitted false w
  | FieldMakePristine field => dispatch (fieldMakePristine field) false w
  | ResetOp => dispatch reset true w
  | ApiReset =>
      dispatch (UseFormApiResponse.reset
                  (useFormApi (formContextValue (registry w) (closed w) (store w))))
               false w
  | Validate settings => {|
      store := validate_started (store w); closed := closed w;
      fresh_values := fresh_values w;
      registry := registry w; instances := instances w;
      inflight := inflight w ++ [WholeForm settings (fieldValidations (registry w) (closed w))]
    |}
  | FieldValidate i =>
      match instances w !! i with
      | Some inst => {|
          store := store w; closed := closed w; fresh_values := fresh_values w;
          registry := registry w; instances := instances w;
          inflight := inflight w ++
            [SingleField (inst_field inst)
               (fieldValidate_call
                  (FormValidators.validateField
                     (validatorsRef_current (registry w) (closed w)))
                  (inst_state inst) (inst_field inst))]
        |}
      | None => w
      end
  | Settle i order =>
      match inflight w !! i with
      | Some entry =>
          match commit entry order with
          | Some (Some action) => {|
              store := action (store w); closed := closed w;
              fresh_values := fresh_values w;
              registry := registry w; instances := instances w;
              inflight := delete i (inflight w)
            |}
          | Some None => {|
              store := store w; closed := closed w;
              fresh_values := fresh_values w;
              registry := registry w; instances := instances w;
              inflight := delete i (inflight w)
            |}
          | None => w
          end
      | None => w
      end
  | MountBeside i field initialValue validator forceInitialValue =>
      (* a field component that mounts in the render in which instance [i]
         mounted: its effects read the state which that render read *)
      match instances w !! i with
      | Some inst =>
          let state := inst_state inst in
          dispatch_opt (seedEffect state field initialValue forceInitialValue) {|
            store := store w; closed := closed w; fresh_values := fresh_values w;
            registry := <[field := validator]> (registry w);
            instances := instances w ++ [{| inst_field := field; inst_state := state |}];
            inflight := inflight w
          |}
      | None => w
      end
  end.

Definition run (ops : list Op) (w : World) : World := foldl (fun w op => step op w) w ops.

(** Scenario A: [name] with a minimum-length validator, [age] without. *)
Definition minLength6 : FormFieldValidator :=
  fun value _ =>
    match value with
    | VStr s => Sync (Returns (if (5 <? String.length s)%nat then VNull else VStr "error"))
    | _ => Sync (Throws (VObj 0 (ErrorInstance "Cannot read properties of undefined")))
    end.

Definition scenarioA : World :=
  run [Mount "name" (VStr "Bla") (Some minLength6) false;
       Mount "age" (VNum 10) None false;
       Render;
       Validate noSettings;
       Settle 0 [1; 0]] initialWorld.

(** ** Predicates and scenarios used by the properties *)

(** [dirty == !pristine], and [pristine] exactly when no field is dirty. *)
Definition dirty_consistent (s : FormState) : Prop :=
  dirty s = negb (pristine s) /\ (pristine s = true <-> dirtyFields s = ∅).

(** The Error made of a failure: the failure itself when it is an Error,
    otherwise an Error whose message is its string conversion; [None]
    when it has no conversion. *)
Definition error_of (failure : JsValue) : option ErrorEntry :=
  match as_Error failure with
  | Returns e => Some (IsError e)
  | Throws _ => None
  end.

(** No validator of a field of [state] fails (throws, or rejects) with
    a value that has no conversion to a string, which the
    [new Error(error)] of line 209 could not wrap. *)
Definition failures_convert (fieldValidators : FormFieldValidators) (state : FormState)
  : Prop :=
  forall field validator failure,
    field ∈ dom (values state) ->
    fieldValidators !! field = Some (Some validator) ->
    await (validator (get (values state) field) (values state)) = Throws failure ->
    is_Some (error_of failure).

(** The operation is not a [setValues] whose object has ["__proto__"]
    for its only key: some key of it is assigned in [dirtyFields]. *)
Definition assigns_dirty (op : Op) : Prop :=
  match op with
  | SetValuesOp fields settings =>
      keepPristine settings = false -> dom fields <> {["__proto__"]}
  | _ => True
  end.

(** The operation names only fields that no object inherits. *)
Definition own_names_op (op : Op) : Prop :=
  match op with
  | Mount field _ _ _ | Reseed field _ _ | SetValue field _ _ | FieldMakePristine field
  | MountBeside _ field _ _ _ =>
      own_name field
  | SetValuesOp fields _ => forall key, key ∈ dom fields -> own_name key
  | _ => True
  end.

(** Every dirty mark is that of a field that no object inherits. *)
Definition dirty_own_names (s : FormState) : Prop :=
  forall k b, dirtyFields s !! k = Some b -> own_name k.

(** An object with the one own key ["__proto__"], as
    [JSON.parse('{"__proto__": 1}')] yields it. *)
Definition protoOnly : FormValues := {["__proto__" := VNum 1]}.

(** A form in which [x] was typed into. *)
Definition typedForm : FormState :=
  setValue "x" (VStr "new") {| keepPristine := false |} initialState.

(** What [errors] must hold for [field] after a whole-form validation
    that closed over [state]: the verdict of the field's own validator
    on the field's value and the values of [state].  A truthy result
    without conversion to a string counts as the TypeError that the
    conversion raises. *)
Definition verdict (fieldValidators : FormFieldValidators) (state : FormState)
  (field : string) : option ErrorEntry :=
  if decide (field ∈ dom (values state)) then
    match fieldValidators !! field with
    | Some (Some validator) =>
        match await (validator (get (values state) field) (values state)) with
        | Returns result =>
            if truthy result then
              match as_Error result with
              | Returns e => Some (IsError e)
              | Throws failure => error_of failure
              end
            else None
        | Throws failure => error_of failure
        end
    | _ => None
    end
  else None.

(** The result of a branch that resolves, null for one that rejects. *)
Definition branch_result (fieldValidators : FormFieldValidators) (state : FormState)
  (k : string) : option FieldResult :=
  match fieldValidation fieldValidators state (values state) k with
  | Returns r => r
  | Throws _ => None
  end.

(** What [Promise.all] is fulfilled with when every branch resolves. *)
Definition resolutions (fieldValidators : FormFieldValidators) (state : FormState)
  : list (option FieldResult) :=
  map (branch_result fieldValidators state) (Object_keys (values state)).







(** A whole-form validation starts with validators none of which fails
    with a value that has no conversion to a string. *)
Definition converting (op : Op) (w : World) : Prop :=
  match op with
  | Validate _ => failures_convert (registry w) (closed w)
  | _ => True
  end.

Fixpoint converting_run (ops : list Op) (w : World) : Prop :=
  match ops with
  | [] => True
  | op :: ops => converting op w /\ converting_run ops (step op w)
  end.

(** Every branch of every whole-form validation in flight resolves. *)
Definition inflight_resolves (w : World) : Prop :=
  forall settings tasks,
    WholeForm settings tasks ∈ inflight w -> is_Some (mapM fulfilled tasks).

(** A validator that rejects with a symbol. *)
Definition rejectsSymbol : FormFieldValidator :=
  fun _ _ => Promised (Throws (VSymbol 0)).



(** A plain object, as a component builds one for [initialValue]. *)
Definition someObject : JsValue := VObj 1 (Ordinary "[object Object]").

(** A mounted pristine field [x] holding the string ["a"]. *)
Definition mountedX : World :=
  run [Mount "x" (VStr "a") None false; Render] initialWorld.



(** [validateField] as the interface declares it and as its callers use
    it: the validator is applied to the field's value in, and to, the
    snapshot handed over by the caller. *)
Definition validateField_of_snapshot (fieldValidators : FormFieldValidators)
  (field : string) (valuesSnapshot : FormValues) : Completion (option JsError) :=
  match fieldValidators !! field with
  | Some (Some fieldValidator) =>
      match await (fieldValidator (get valuesSnapshot field) valuesSnapshot) with
      | Throws failure => Throws failure
      | Returns error =>
          if truthy error then
            match as_Error error with
            | Returns error' => Returns (Some error')
            | Throws failure => Throws failure
            end
          else Returns None
      end
  | _ => Returns None
  end.

(** A validator that reports the value it was given. *)
Definition reportsValue : FormFieldValidator :=
  fun value _ =>
    match to_string value with
    | Some text => Sync (Returns (VStr ("got " +:+ text)))
    | None => Sync (Throws (conversion_failure value))
    end.

(** The field [name] mounted with initial value ["Bla"], rendered. *)
Definition mountedName (validator : FormFieldValidator) : World :=
  run [Mount "name" (VStr "Bla") (Some validator) false; Render] initialWorld.

Definition rejectsBad : FormFieldValidator :=
  fun _ _ => Promised (Throws (VStr "bad")).

Definition returnsBad : FormFieldValidator :=
  fun _ _ => Sync (Returns (VStr "bad")).

(** [name] is given a valid value and the whole form is validated
    before the next render. *)
Definition setThenValidated : World :=
  run [SetValue "name" (VStr "Blabla") {| keepPristine := false |};
       Validate noSettings;
       Settle 0 [0]] (mountedName minLength6).

(** The field's own [validate], settled. *)
Definition fieldValidated (validator : FormFieldValidator) : World :=
  run [FieldValidate 0; Settle 0 []] (mountedName validator).

(** The whole-form [validate], settled. *)
Definition formValidated (validator : FormFieldValidator) : World :=
  run [Validate noSettings; Settle 0 [0]] (mountedName validator).




(** ** What [useField] hands back, and [asField] *)

Module UseFieldResponse.
Record t := {
  value : JsValue;
  error : option ErrorEntry;
  dirty : bool;
  pristine : bool
}.
End UseFieldResponse.

(** Lines 436-439: what a field component reads in a render with state
    [state] ([error]: [None] is undefined). *)
Definition useField_read (state : FormState) (field : string) (initialValue : JsValue)
  : UseFieldResponse.t :=
  let value :=
    if has_key field (values state) then get (values state) field else initialValue in
  let error := errors state !! field in
  let pristine := fieldPristine state field in
  let dirty := negb pristine in {|
    UseFieldResponse.value := value;
    UseFieldResponse.error := error;
    UseFieldResponse.dirty := dirty;
    UseFieldResponse.pristine := pristine
  |}.

Module UseFieldArgs.
Record t := {
  validator : option FormFieldValidator;
  field : string;
  initialValue : JsValue;
  forceInitialValue : option bool
}.
End UseFieldArgs.



(** ** The transitions of the store *)

(** Every function the engine hands to [setState]. *)
Inductive transition : (FormState -> FormState) -> Prop :=
  | transition_setValue field value settings : transition (setValue field value settings)
  | transition_setValues fields settings action :
      setValues fields settings = Some action -> transition action
  | transition_pruneField field : transition (pruneField field)
  | transition_fieldMakePristine field : transition (fieldMakePristine field)
  | transition_makeFormPristine : transition makeFormPristine
  | transition_makeFormSubmitted : transition makeFormSubmitted
  | transition_reset : transition reset
  | transition_validate_started : transition validate_started
  | transition_validate_outcome settings results :
      transition (validate_outcome settings results)
  | transition_fieldValidate_commit field outcome :
      transition (fieldValidate_commit field outcome).



(** [valid == !invalid]; every dirty field is a key of [values]; every
    entry of [dirtyFields] is [true]. *)
Definition flags_coherent (s : FormState) : Prop :=
  valid s = negb (invalid s).

Definition dirty_within_values (s : FormState) : Prop :=
  dom (dirtyFields s) ⊆ dom (values s).

Definition dirty_marks_true (s : FormState) : Prop :=
  forall k b, dirtyFields s !! k = Some b -> b = true.

(** A second field for the examples. *)
Definition twoFields : World :=
  run [Mount "name" (VStr "Bla") (Some minLength6) false;
       Mount "age" (VNum 10) None false;
       Render;
       SetValue "age" (VNum 11) {| keepPristine := false |};
       Render] initialWorld.




(** A whole-form validation is in flight. *)
Definition is_whole_form (entry : InFlight) : bool :=
  match entry with
  | WholeForm _ _ => true
  | SingleField _ _ => false
  end.

Definition validating (w : World) : bool := existsb is_whole_form (inflight w).

Definition is_render (op : Op) : bool :=
  match op with
  | Render => true
  | _ => false
  end.

(** * Properties *)

(** ** Keys of an object *)

Section keys.
Context {A : Type}.
Implicit Types (o : gmap string A) (k : string).

Lemma elem_of_Object_keys o k : k ∈ Object_keys o <-> is_Some (o !! k).
Proof.
  unfold Object_keys. rewrite list_elem_of_fmap. split.
  - intros [[k' a] [-> Hin]]. apply elem_of_map_to_list in Hin. eauto.
  - intros [a Ha]. exists (k, a). split; [done|]. by apply elem_of_map_to_list.
Qed.

Lemma NoDup_Object_keys o : NoDup (Object_keys o).
Proof. apply NoDup_fst_map_to_list. Qed.

Lemma no_keys_true o : no_keys o = true <-> o = ∅.
Proof.
  unfold no_keys, Object_keys. rewrite Nat.eqb_eq, length_fmap. split.
  - intros Hlen. apply map_to_list_empty_iff. by apply nil_length_inv.
  - intros ->. by rewrite map_to_list_empty.
Qed.


Lemma has_key_true o k : has_key k o = true <-> k ∈ dom o.
Proof. unfold has_key. rewrite bool_decide_eq_true. by rewrite elem_of_dom. Qed.

Lemma has_key_false o k : has_key k o = false <-> k ∉ dom o.
Proof. unfold has_key. rewrite bool_decide_eq_false. by rewrite elem_of_dom. Qed.
End keys.

(** The [forEach] of [setValues] marks every key but ["__proto__"]. *)
Lemma assign_true_lookup (d : DirtyFields) (key k : string) :
  assign_true d key !! k = Some true \/ assign_true d key !! k = d !! k.
Proof.
  unfold assign_true. case_bool_decide; [by right|].
  destruct (decide (key = k)) as [->|Hne].
  - left. by rewrite lookup_insert_eq.
  - right. by rewrite lookup_insert_ne.
Qed.

Lemma assign_true_keeps (d : DirtyFields) (key k : string) :
  d !! k = Some true -> assign_true d key !! k = Some true.
Proof. intros Hk. by destruct (assign_true_lookup d key k) as [H|H]; rewrite H. Qed.

Lemma mark_dirty_keeps (keys : list string) (d : DirtyFields) (k : string) :
  d !! k = Some true -> foldl assign_true d keys !! k = Some true.
Proof.
  revert d. induction keys as [|key keys IH]; intros d Hk; [done|].
  simpl. apply IH. by apply assign_true_keeps.
Qed.

Lemma mark_dirty_lookup (keys : list string) (d : DirtyFields) (k : string) :
  k ∈ keys -> k <> "__proto__" -> foldl assign_true d keys !! k = Some true.
Proof.
  revert d. induction keys as [|key keys IH]; intros d Hin Hk.
  - by apply elem_of_nil in Hin.
  - simpl. destruct (decide (key = k)) as [->|Hne].
    + apply mark_dirty_keeps. unfold assign_true.
      rewrite bool_decide_eq_false_2 by (intros [? _]; done).
      by rewrite lookup_insert_eq.
    + apply IH; [|done]. apply elem_of_cons in Hin as [Hin|Hin]; congruence.
Qed.

Lemma mark_dirty_nonempty (fields : FormValues) (d : DirtyFields) :
  Object_keys fields <> [] -> dom fields <> {["__proto__"]} ->
  foldl assign_true d (Object_keys fields) <> ∅.
Proof.
  intros Hkeys Hdom Hempty.
  assert (Hex : exists k, k ∈ Object_keys fields /\ k <> "__proto__").
  { destruct (decide (Forall (fun k => k = "__proto__") (Object_keys fields)))
      as [Hall|Hsome].
    - exfalso. apply Hdom. apply set_eq. intros k.
      rewrite elem_of_singleton, elem_of_dom, <- elem_of_Object_keys. split.
      + intros Hin. by eapply Forall_forall in Hall.
      + intros ->. destruct (Object_keys fields) as [|k0 keys] eqn:E; [done|].
        apply Forall_cons in Hall as [-> _]. left.
    - apply not_Forall_Exists in Hsome; [|intros k; apply _].
      apply Exists_exists in Hsome as (k & Hin & Hk). by exists k. }
  destruct Hex as (k & Hin & Hk).
  pose proof (mark_dirty_lookup _ d k Hin Hk) as Hlook.
  rewrite Hempty in Hlook. by rewrite lookup_empty in Hlook.
Qed.

(** ** The dirty flags *)

Lemma validate_outcome_dirty settings results base :
  dirty_consistent base -> dirty_consistent (validate_outcome settings results base).
Proof.
  intros [Hd Hp]. unfold validate_outcome.
  destruct (aggregate results) as [hasErrors errs].
  destruct hasErrors; [by split|].
  destruct (makePristine settings); [by split|].
  destruct (makeSubmitted settings); by split.
Qed.

Lemma setValue_dirty field value settings s :
  dirty_consistent s -> dirty_consistent (setValue field value settings s).
Proof.
  intros [Hd Hp]. unfold setValue. destruct (keepPristine settings); [by split|].
  split; [done|]. simpl. split; [done|]. intros Hempty.
  by apply insert_non_empty in Hempty.
Qed.

Lemma setValues_dirty fields settings action s :
  (keepPristine settings = false -> dom fields <> {["__proto__"]}) ->
  setValues fields settings = Some action ->
  dirty_consistent s -> dirty_consistent (action s).
Proof.
  unfold setValues. destruct (length (Object_keys fields) =? 0) eqn:Hlen; [done|].
  intros Hdom [= <-] [Hd Hp]. destruct (keepPristine settings); [by split|].
  split; [done|]. simpl. split; [done|]. intros Hempty.
  apply mark_dirty_nonempty in Hempty; [done| |by apply Hdom].
  intros Hnil. rewrite Hnil in Hlen. done.
Qed.

Lemma pruneField_dirty field s : dirty_consistent (pruneField field s).
Proof. split; [done|]. simpl. apply no_keys_true. Qed.

Lemma fieldMakePristine_dirty field s : dirty_consistent (fieldMakePristine field s).
Proof. split; [done|]. simpl. apply no_keys_true. Qed.

Lemma fieldValidate_commit_dirty field outcome s :
  dirty_consistent s -> dirty_consistent (fieldValidate_commit field outcome s).
Proof. intros [Hd Hp]. destruct outcome as [[e|]|thrown]; by split. Qed.

Lemma seedEffect_dirty state field initialValue force action s :
  seedEffect state field initialValue force = Some action ->
  dirty_consistent s -> dirty_consistent (action s).
Proof.
  unfold seedEffect. destruct (shouldSeed _ _ _ _); [|done].
  intros [= <-]. apply setValue_dirty.
Qed.

Lemma cleanupEffect_dirty state field action s :
  cleanupEffect state field = Some action -> dirty_consistent (action s).
Proof.
  unfold cleanupEffect. destruct (has_key _ _); [done|].
  intros [= <-]. apply pruneField_dirty.
Qed.

Lemma api_reset_is_makeFormSubmitted fieldValidators closed' state :
  UseFormApiResponse.reset (useFormApi (formContextValue fieldValidators closed' state))
  = makeFormSubmitted.
Proof. reflexivity. Qed.

Lemma step_dirty op w :
  assigns_dirty op ->
  dirty_consistent (store w) -> dirty_consistent (store (step op w)).
Proof.
  intros Hop Hinv. destruct op; simpl.
  - by destruct (fresh_values w).
  - destruct (seedEffect _ _ _ _) eqn:E; simpl; [|done].
    by eapply seedEffect_dirty.
  - destruct (seedEffect _ _ _ _) eqn:E; simpl; [|done].
    by eapply seedEffect_dirty.
  - destruct (instances w !! i); [|done].
    destruct (cleanupEffect _ _) eqn:E; simpl; [|done].
    by eapply cleanupEffect_dirty.
  - by apply setValue_dirty.
  - destruct (setValues _ _) eqn:E; simpl; [|done].
    by eapply setValues_dirty.
  - split; done.
  - destruct Hinv. by split.
  - apply fieldMakePristine_dirty.
  - by split.
  - destruct Hinv. by split.
  - destruct Hinv. by split.
  - by destruct (instances w !! i).
  - destruct (inflight w !! i) as [entry|]; [|done].
    destruct entry as [settings tasks|field outcome]; simpl.
    + destruct (Promise_all_settled tasks order) as [[results|failure]|]; simpl; [|done..].
      by apply validate_outcome_dirty.
    + by apply fieldValidate_commit_dirty.
  - destruct (instances w !! i); [|done].
    destruct (seedEffect _ _ _ _) eqn:E; simpl; [|done].
    by eapply seedEffect_dirty.
Qed.

Lemma run_dirty ops w :
  Forall assigns_dirty ops ->
  dirty_consistent (store w) -> dirty_consistent (store (run ops w)).
Proof.
  revert w. induction ops as [|op ops IH]; intros w Hops Hinv; [done|].
  apply Forall_cons in Hops as [Hop Hops].
  simpl. apply IH; [done|]. by apply step_dirty.
Qed.

Lemma own_names_assigns_dirty op : own_names_op op -> assigns_dirty op.
Proof.
  destruct op; try done. simpl. intros Hnames _ Hdom.
  assert (Hin : "__proto__" ∈ dom fields) by (rewrite Hdom; by apply elem_of_singleton).
  apply Hnames in Hin. discriminate Hin.
Qed.

(** C9: the invariant that [dirty] is the negation of [pristine] and
    that [pristine] holds exactly when [dirtyFields] is empty is broken
    by [setValues]: called on a fresh form with the object whose one own
    key is ["__proto__"], it leaves [dirty] true and [pristine] false
    with [dirtyFields] empty, because the assignment of line 376 adds no
    key.  [setValue] with the same field, which writes the mark with a
    computed key (line 400), does mark it. *)
Theorem setValues_proto_key_breaks_dirty_flags :
  let s := store (run [SetValuesOp protoOnly {| keepPristine := false |}] initialWorld) in
  (values s = protoOnly /\ dirty s = true /\ pristine s = false /\ dirtyFields s = ∅) /\
  ~ (pristine s = true <-> dirtyFields s = ∅) /\
  dirtyFields (store (run [SetValue "__proto__" (VNum 1) {| keepPristine := false |}]
                          initialWorld)) = {["__proto__" := true]}.
Proof.
  split; [repeat split; vm_compute; reflexivity|].
  split; [|vm_compute; reflexivity].
  intros [_ Hpristine].
  assert (Hfalse : false = true) by (apply Hpristine; vm_compute; reflexivity).
  discriminate Hfalse.
Qed.

(** X23: after every operation of every sequence of operations that
    names only fields that no object inherits from [Object.prototype]
    (so that no [setValues] carries the key ["__proto__"]), [dirty] is
    the negation of [pristine], and [pristine] holds exactly when
    [dirtyFields] is empty. *)
Theorem dirty_flags_invariant (ops : list Op) (n : nat) :
  Forall own_names_op ops ->
  let s := store (run (take n ops) initialWorld) in
  dirty s = negb (pristine s) /\ (pristine s = true <-> dirtyFields s = ∅).
Proof.
  intros Hops. apply run_dirty; [|by split].
  apply Forall_take. eapply Forall_impl; [done|]. apply own_names_assigns_dirty.
Qed.

Lemma dirty_flags_invariant_witness :
  let ops := [Mount "x" (VStr "abc") None false;
              SetValuesOp {[ "x" := VStr "typed" ]} {| keepPristine := false |};
              FieldMakePristine "x"] in
  Forall own_names_op ops
  /\ pristine (store (run (take 2 ops) initialWorld)) = false
  /\ dirtyFields (store (run (take 2 ops) initialWorld)) <> ∅
  /\ dirtyFields (store (run (take 3 ops) initialWorld)) = ∅.
Proof.
  intros ops.
  assert (Hops : Forall own_names_op ops).
  { repeat constructor. intros key Hkey.
    rewrite dom_singleton_L in Hkey. apply elem_of_singleton in Hkey. by subst key. }
  split; [exact Hops|].
  destruct (dirty_flags_invariant ops 2 Hops) as [_ Hdirty].
  destruct (dirty_flags_invariant ops 3 Hops) as [_ Hpristine].
  split; [vm_compute; reflexivity|]. split.
  - intros Hempty. apply Hdirty in Hempty. vm_compute in Hempty. discriminate Hempty.
  - apply Hpristine. vm_compute. reflexivity.
Defined.

(** ** The submitted flag *)

Lemma validate_outcome_submitted settings results base :
  submitted base = true -> submitted (validate_outcome settings results base) = true.
Proof.
  intros Hs. unfold validate_outcome.
  destruct (aggregate results) as [hasErrors errs].
  destruct hasErrors; [done|].
  destruct (makePristine settings); [done|].
  by destruct (makeSubmitted settings).
Qed.

Lemma fieldValidate_commit_submitted field outcome s :
  submitted (fieldValidate_commit field outcome s) = submitted s.
Proof. by destruct outcome as [[e|]|thrown]. Qed.

Lemma seedEffect_submitted state field initialValue force action s :
  seedEffect state field initialValue force = Some action ->
  submitted (action s) = submitted s.
Proof.
  unfold seedEffect. destruct (shouldSeed _ _ _ _); [|done]. by intros [= <-].
Qed.

Lemma cleanupEffect_submitted state field action s :
  cleanupEffect state field = Some action -> submitted (action s) = submitted s.
Proof.
  unfold cleanupEffect. destruct (has_key _ _); [done|]. by intros [= <-].
Qed.

(** C10: a freshly created state has [submitted = true], so has the
    state that [reset] builds (and the one left by the [reset] of the
    form API), and an operation turns [submitted] from true to false
    only if it sets a field value ([setValue] or [setValues]) without
    [keepPristine]; [setValue] without [keepPristine] always does. *)
Theorem submitted_flag (op : Op) (w : World) :
  submitted initialState = true
  /\ submitted (store (step ResetOp w)) = true
  /\ submitted (store (step ApiReset w)) = true
  /\ (forall field value,
        submitted (store (step (SetValue field value {| keepPristine := false |}) w)) = false)
  /\ (submitted (store w) = true ->
      submitted (store (step op w)) = false ->
      (exists field value, op = SetValue field value {| keepPristine := false |})
      \/ (exists fields, op = SetValuesOp fields {| keepPristine := false |})).
Proof.
  split; [done|]. split; [done|]. split; [done|]. split; [done|].
  intros Hs Hc. destruct op; simpl in Hc.
  - destruct (fresh_values w); simpl in Hc; congruence.
  - destruct (seedEffect _ _ _ _) eqn:E; simpl in Hc; [|congruence].
    erewrite seedEffect_submitted in Hc by done. congruence.
  - destruct (seedEffect _ _ _ _) eqn:E; simpl in Hc; [|congruence].
    erewrite seedEffect_submitted in Hc by done. congruence.
  - destruct (instances w !! i); [|congruence].
    destruct (cleanupEffect _ _) eqn:E; simpl in Hc; [|congruence].
    erewrite cleanupEffect_submitted in Hc by done. congruence.
  - left. destruct settings as [[|]]; [|by eauto].
    simpl in Hc. congruence.
  - right. destruct settings as [[|]]; [|by eauto].
    unfold setValues in Hc. destruct (length (Object_keys fields) =? 0);
      simpl in Hc; congruence.
  - done.
  - done.
  - congruence.
  - done.
  - done.
  - congruence.
  - destruct (instances w !! i); simpl in Hc; congruence.
  - destruct (inflight w !! i) as [entry|]; [|congruence].
    destruct entry as [settings tasks|field outcome]; simpl in Hc.
    + destruct (Promise_all_settled tasks order) as [[results|failure]|];
        simpl in Hc; [|congruence..].
      rewrite validate_outcome_submitted in Hc; done.
    + rewrite fieldValidate_commit_submitted in Hc. congruence.
  - destruct (instances w !! i); [|congruence].
    destruct (seedEffect _ _ _ _) eqn:E; simpl in Hc; [|congruence].
    erewrite seedEffect_submitted in Hc by done. congruence.
Qed.

Lemma submitted_flag_witness :
  (exists field value,
     SetValue "x" (VStr "new") {| keepPristine := false |}
     = SetValue field value {| keepPristine := false |})
  \/ (exists fields,
        SetValue "x" (VStr "new") {| keepPristine := false |}
        = SetValuesOp fields {| keepPristine := false |}).
Proof.
  apply (proj2 (proj2 (proj2 (proj2
    (submitted_flag (SetValue "x" (VStr "new") {| keepPristine := false |}) initialWorld)))));
    reflexivity.
Defined.

(** ** The [reset] of the form API *)

(** C1: the [reset] that [useFormApi] returns is the eighth element of
    the context, [makeFormSubmitted]; on a form in which [x] was set it
    leaves the values and the dirty flags as they are and does not
    recreate the initial state, which the [reset] of [asForm] does. *)
Theorem api_reset_does_not_reset :
  let api := useFormApi (formContextValue ∅ typedForm typedForm) in
  let after := UseFormApiResponse.reset api typedForm in
  UseFormApiResponse.reset api = makeFormSubmitted
  /\ values after = {[ "x" := VStr "new" ]}
  /\ dirtyFields after = {[ "x" := true ]}
  /\ dirty after = true
  /\ pristine after = false
  /\ after <> initialState
  /\ reset typedForm = initialState.
Proof.
  repeat split; try reflexivity.
  intros Heq. apply (f_equal dirty) in Heq. discriminate Heq.
Qed.

(** ** The fan-in: [Promise.all] *)

Section promise_all.
Context {A : Type}.
Implicit Types (tasks : list A) (slots : list (option A)) (order : list nat).

Lemma settle_length tasks slots i : length (settle tasks slots i) = length slots.
Proof. unfold settle. destruct (tasks !! i); [apply length_insert|done]. Qed.

Lemma settle_lookup tasks slots i j :
  length slots = length tasks ->
  settle tasks slots i !! j
  = match tasks !! j with
    | Some t => if decide (i = j) then Some (Some t) else slots !! j
    | None => slots !! j
    end.
Proof.
  intros Hlen. unfold settle. destruct (decide (i = j)) as [->|Hne].
  - destruct (tasks !! j) as [t|] eqn:Ht; [|done].
    apply list_lookup_insert_eq. rewrite Hlen. by eapply lookup_lt_Some.
  - destruct (tasks !! i); [rewrite list_lookup_insert_ne by done|];
      by destruct (tasks !! j).
Qed.

(** A slot holds the result of its own branch once that branch has
    settled, whatever the order. *)
Lemma settled_lookup tasks order slots j :
  length slots = length tasks ->
  foldl (settle tasks) slots order !! j
  = match tasks !! j with
    | Some t => if decide (j ∈ order) then Some (Some t) else slots !! j
    | None => slots !! j
    end.
Proof.
  revert slots. induction order as [|i order IH]; intros slots Hlen; cbn [foldl].
  - destruct (tasks !! j); [|done]. by rewrite decide_False by apply not_elem_of_nil.
  - rewrite IH by (by rewrite settle_length). rewrite settle_lookup by done.
    destruct (tasks !! j) as [t|]; [|done].
    destruct (decide (j ∈ order)) as [Hin|Hout].
    + by rewrite decide_True by (by right).
    + destruct (decide (i = j)) as [->|Hne].
      * by rewrite decide_True by left.
      * rewrite decide_False; [done|]. by intros [?|?]%elem_of_cons.
Qed.

Lemma mapM_id_Some tasks : mapM id (Some <$> tasks) = Some tasks.
Proof.
  apply mapM_Some_2. induction tasks as [|t tasks IH]; [constructor|].
  rewrite fmap_cons. by constructor.
Qed.

(** Once every branch has settled the promise is fulfilled with the
    results in the order of the branches. *)
Lemma Promise_all_fulfilled tasks order :
  (forall j, j < length tasks -> j ∈ order) -> Promise_all tasks order = Some tasks.
Proof.
  intros Hall. unfold Promise_all.
  replace (foldl _ _ order) with (Some <$> tasks); [apply mapM_id_Some|].
  apply list_eq. intros j.
  rewrite settled_lookup by apply length_replicate. rewrite list_lookup_fmap.
  destruct (tasks !! j) as [t|] eqn:Ht; simpl.
  - rewrite decide_True; [done|]. apply Hall. by eapply lookup_lt_Some.
  - symmetry. apply lookup_ge_None. rewrite length_replicate. by apply lookup_ge_None.
Qed.


(** Partial results are not committed: while a branch has not settled
    the promise is pending. *)
Lemma Promise_all_pending tasks order j :
  j < length tasks -> j ∉ order -> Promise_all tasks order = None.
Proof.
  intros Hj Hout. unfold Promise_all. apply mapM_None_2, Exists_exists.
  exists None. split; [|done]. apply list_elem_of_lookup. exists j.
  rewrite settled_lookup by apply length_replicate.
  destruct (lookup_lt_is_Some_2 tasks j Hj) as [t ->].
  rewrite decide_False by done. by apply lookup_replicate_2.
Qed.
End promise_all.

(** ** [Promise.all] over branches that may reject *)

Section promise_all_settled.
Context {A : Type}.
Implicit Types (tasks : list (Completion A)) (order : list nat).

Lemma rejection_Some tasks i failure :
  rejection tasks i = Some failure <-> tasks !! i = Some (Throws failure).
Proof.
  unfold rejection. destruct (tasks !! i) as [[a|f]|]; split; congruence.
Qed.

Lemma no_rejection tasks order :
  omap (rejection tasks) order = []
  <-> forall i failure, i ∈ order -> tasks !! i <> Some (Throws failure).
Proof.
  split.
  - intros Hnil i failure Hin Hi.
    assert (Hf : failure ∈ omap (rejection tasks) order).
    { apply list_elem_of_omap. exists i. split; [done|]. by apply rejection_Some. }
    rewrite Hnil in Hf. by apply elem_of_nil in Hf.
  - intros Hnone. destruct (omap (rejection tasks) order) as [|failure l] eqn:E; [done|].
    assert (Hf : failure ∈ omap (rejection tasks) order) by (rewrite E; left).
    apply list_elem_of_omap in Hf as (i & Hin & Hi). apply rejection_Some in Hi.
    by destruct (Hnone i failure Hin).
Qed.

Lemma resolved_lookup tasks results j :
  mapM fulfilled tasks = Some results ->
  tasks !! j = Returns <$> results !! j.
Proof.
  intros Hall. apply mapM_Some_1 in Hall.
  destruct (tasks !! j) as [t|] eqn:Ht.
  - destruct (Forall2_lookup_l _ _ _ _ _ Hall Ht) as (r & -> & Hr).
    destruct t; simpl in Hr; by inversion Hr.
  - apply Forall2_length in Hall. apply lookup_ge_None in Ht.
    rewrite (proj2 (lookup_ge_None results j)); [done|lia].
Qed.

(** Once every branch has resolved the promise is fulfilled with the
    results in the order of the branches. *)
Lemma Promise_all_settled_resolved tasks order results :
  mapM fulfilled tasks = Some results ->
  (forall j, j < length tasks -> j ∈ order) ->
  Promise_all_settled tasks order = Some (Returns results).
Proof.
  intros Hall Hevery. unfold Promise_all_settled.
  rewrite (proj2 (no_rejection tasks order)).
  - rewrite Promise_all_fulfilled by done. simpl. by rewrite Hall.
  - intros i failure _ Hi. rewrite (resolved_lookup _ _ _ Hall) in Hi.
    by destruct (results !! i).
Qed.


(** It rejects with the failure of the branch that rejects first. *)
Lemma Promise_all_settled_Throws tasks order failure :
  Promise_all_settled tasks order = Some (Throws failure) ->
  exists i, i ∈ order /\ tasks !! i = Some (Throws failure).
Proof.
  unfold Promise_all_settled.
  destruct (omap _ order) as [|failure' l] eqn:E.
  - destruct (Promise_all tasks order); [|done]. simpl.
    by destruct (mapM fulfilled _).
  - intros [= <-].
    assert (Hf : failure' ∈ omap (rejection tasks) order) by (rewrite E; left).
    apply list_elem_of_omap in Hf as (i & Hin & Hi). apply rejection_Some in Hi. eauto.
Qed.

Lemma Promise_all_settled_rejects tasks order i failure :
  i ∈ order -> tasks !! i = Some (Throws failure) ->
  exists failure', Promise_all_settled tasks order = Some (Throws failure').
Proof.
  intros Hin Hi. unfold Promise_all_settled.
  destruct (omap (rejection tasks) order) as [|failure' l] eqn:E; [|by eexists].
  exfalso. by eapply (proj1 (no_rejection tasks order) E).
Qed.

(** It is pending while a branch has not settled and none has rejected. *)
Lemma Promise_all_settled_pending tasks order j :
  j < length tasks -> j ∉ order ->
  (forall i failure, i ∈ order -> tasks !! i <> Some (Throws failure)) ->
  Promise_all_settled tasks order = None.
Proof.
  intros Hj Hout Hnone. unfold Promise_all_settled.
  rewrite (proj2 (no_rejection tasks order)) by done.
  by rewrite (Promise_all_pending tasks order j).
Qed.
End promise_all_settled.

(** ** The aggregation of the results *)

Section aggregation.
Implicit Types (results : list (option FieldResult)) (acc : bool * FormErrors).

Lemma aggregate_fold results : aggregate results = foldl collect (false, ∅) results.
Proof. reflexivity. Qed.

Lemma collect_errors_lookup (f : string -> option FieldResult) keys acc k :
  (forall k' r, f k' = Some r -> key r = k') ->
  (foldl collect acc (map f keys)).2 !! k
  = match (if decide (k ∈ keys) then f k else None) with
    | Some r => Some (IsError (error r))
    | None => acc.2 !! k
    end.
Proof.
  intros Hkey. revert acc. induction keys as [|k0 keys IH]; intros acc;
    cbn [foldl map].
  - by rewrite decide_False by apply not_elem_of_nil.
  - rewrite IH. destruct (decide (k ∈ keys)) as [Hin|Hout].
    + rewrite decide_True by (by right).
      destruct (f k) as [r|] eqn:Hfk; [done|].
      unfold collect. destruct (f k0) as [r0|] eqn:Hf0; [|done]. simpl.
      apply lookup_insert_ne. rewrite (Hkey _ _ Hf0). congruence.
    + destruct (decide (k0 = k)) as [->|Hne].
      * rewrite decide_True by left. unfold collect.
        destruct (f k) as [r|] eqn:Hfk; [|done]. simpl.
        rewrite (Hkey _ _ Hfk). apply lookup_insert_eq.
      * rewrite decide_False by (by intros [?|?]%elem_of_cons).
        unfold collect. destruct (f k0) as [r0|] eqn:Hf0; [|done]. simpl.
        apply lookup_insert_ne. by rewrite (Hkey _ _ Hf0).
Qed.

Lemma collect_hasErrors results acc :
  (acc.1 = true <-> acc.2 <> ∅) ->
  (foldl collect acc results).1 = true <-> (foldl collect acc results).2 <> ∅.
Proof.
  revert acc. induction results as [|result results IH]; intros acc Hacc; [done|].
  simpl. apply IH. destruct result as [r|]; [|done]. simpl.
  split; [|done]. intros _. apply insert_non_empty.
Qed.

(** [hasErrors] is set exactly when [errors] got an entry. *)
Lemma aggregate_hasErrors results :
  (aggregate results).1 = negb (bool_decide ((aggregate results).2 = ∅)).
Proof.
  rewrite aggregate_fold.
  pose proof (collect_hasErrors results (false, ∅)) as H.
  destruct H as [H1 H2]; [done|].
  destruct (foldl collect (false, ∅) results).1 eqn:E.
  - rewrite bool_decide_eq_false_2; [done|]. by apply H1.
  - rewrite bool_decide_eq_true_2; [done|].
    destruct (decide ((foldl collect (false, ∅) results).2 = ∅)) as [|Hne]; [done|].
    apply H2 in Hne. congruence.
Qed.

End aggregation.

Lemma validate_outcome_errors settings results base :
  errors (validate_outcome settings results base) = (aggregate results).2.
Proof.
  pose proof (aggregate_hasErrors results) as H. unfold validate_outcome.
  destruct (aggregate results) as [hasErrors errs]. simpl in *.
  destruct hasErrors; [done|].
  symmetry in H. apply negb_false_iff, bool_decide_eq_true in H. subst errs.
  destruct (makePristine settings); [done|]. by destruct (makeSubmitted settings).
Qed.

Lemma validate_outcome_valid settings results base :
  valid (validate_outcome settings results base) = negb (aggregate results).1
  /\ invalid (validate_outcome settings results base) = (aggregate results).1
  /\ loading (validate_outcome settings results base) = false
  /\ values (validate_outcome settings results base) = values base.
Proof.
  unfold validate_outcome. destruct (aggregate results) as [hasErrors errs]. simpl.
  destruct hasErrors; [done|].
  destruct (makePristine settings); [done|]. by destruct (makeSubmitted settings).
Qed.

(** ** Whole-form validation *)

Lemma fieldValidation_key fieldValidators state immutableValues k r :
  fieldValidation fieldValidators state immutableValues k = Returns (Some r) -> key r = k.
Proof.
  unfold fieldValidation.
  destruct (validateField _ _ _ _) as [[e|]|thrown]; [| |destruct (as_Error thrown)];
    try done; by intros [= <-].
Qed.

Lemma resolved_fieldValidations fieldValidators state results :
  mapM fulfilled (fieldValidations fieldValidators state) = Some results ->
  results = map (branch_result fieldValidators state) (Object_keys (values state))
  /\ forall k, k ∈ Object_keys (values state) ->
       fieldValidation fieldValidators state (values state) k
       = Returns (branch_result fieldValidators state k).
Proof.
  unfold fieldValidations. simpl.
  generalize (Object_keys (values state)). intros keys. revert results.
  induction keys as [|k keys IH]; intros results Hall.
  - simpl in Hall. injection Hall as <-. split; [done|].
    intros k Hin. by apply elem_of_nil in Hin.
  - rewrite map_cons in Hall. apply mapM_Some_1 in Hall.
    inversion Hall as [|c r tasks results' Hc Hrest]; subst.
    apply mapM_Some_2 in Hrest. destruct (IH _ Hrest) as [-> Hkeys].
    assert (Hk : fieldValidation fieldValidators state (values state) k
                 = Returns (branch_result fieldValidators state k)).
    { unfold branch_result.
      by destruct (fieldValidation fieldValidators state (values state) k). }
    split.
    + rewrite map_cons. f_equal. rewrite Hk in Hc. simpl in Hc. congruence.
    + intros k' Hin. apply elem_of_cons in Hin as [->|Hin]; [done|by apply Hkeys].
Qed.

Lemma branch_result_key fieldValidators state k r :
  branch_result fieldValidators state k = Some r -> key r = k.
Proof.
  unfold branch_result.
  destruct (fieldValidation _ _ _ k) as [r'|] eqn:E; [|done].
  intros ->. by eapply fieldValidation_key.
Qed.

Lemma fieldValidations_errors fieldValidators state results field :
  mapM fulfilled (fieldValidations fieldValidators state) = Some results ->
  (aggregate results).2 !! field = verdict fieldValidators state field.
Proof.
  intros Hall. apply resolved_fieldValidations in Hall as [-> Hkeys].
  rewrite aggregate_fold.
  rewrite collect_errors_lookup by apply branch_result_key.
  simpl. rewrite lookup_empty. unfold verdict.
  destruct (decide (field ∈ Object_keys (values state))) as [Hin|Hout].
  - rewrite decide_True by (by apply elem_of_dom, elem_of_Object_keys).
    specialize (Hkeys field Hin). unfold branch_result.
    destruct (fieldValidation _ _ _ field) as [r|] eqn:E; [|done]. clear Hkeys.
    revert E. unfold fieldValidation, validateField, error_of.
    destruct (fieldValidators !! field) as [[validator|]|];
      [|by intros [= <-]|by intros [= <-]].
    destruct (await _) as [result|failure].
    + destruct (truthy result); [|by intros [= <-]].
      destruct (as_Error result) as [e|failure]; [by intros [= <-]|].
      destruct (as_Error failure); [by intros [= <-]|done].
    + destruct (as_Error failure); [by intros [= <-]|done].
  - rewrite decide_False; [done|]. intros Hin. apply Hout.
    by apply elem_of_Object_keys, elem_of_dom.
Qed.

Lemma fieldValidations_length fieldValidators state :
  length (fieldValidations fieldValidators state) = length (Object_keys (values state)).
Proof. unfold fieldValidations. apply length_map. Qed.

(** What [new Error] throws is an Error. *)
Lemma as_Error_failure (x failure : JsValue) :
  as_Error x = Throws failure -> exists m, as_Error failure = Returns {| message := m |}.
Proof.
  destruct x as [| |[]| | | |id|addr []]; simpl; try done;
    intros [= <-]; by eexists.
Qed.

(** No branch rejects when every failure of a validator converts. *)
Lemma failures_convert_resolved fieldValidators state :
  failures_convert fieldValidators state ->
  exists results, mapM fulfilled (fieldValidations fieldValidators state) = Some results.
Proof.
  intros Hconv.
  destruct (mapM fulfilled (fieldValidations fieldValidators state)) as [results|] eqn:E;
    [by exists results|].
  exfalso. apply mapM_None_1, Exists_exists in E as (task & Hin & Htask).
  unfold fieldValidations in Hin. apply list_elem_of_fmap in Hin as (k & -> & Hk).
  apply elem_of_Object_keys, elem_of_dom in Hk.
  revert Htask. unfold fieldValidation, validateField.
  destruct (fieldValidators !! k) as [[validator|]|] eqn:Hv; [|done|done].
  destruct (await _) as [result|failure] eqn:Hres.
  - destruct (truthy result); [|done].
    destruct (as_Error result) as [e|failure] eqn:Hresult; [done|].
    by destruct (as_Error_failure _ _ Hresult) as [m ->].
  - destruct (Hconv k validator failure Hk Hv Hres) as [entry Hentry].
    unfold error_of in Hentry. by destruct (as_Error failure).
Qed.

Lemma failures_convert_resolutions fieldValidators state :
  failures_convert fieldValidators state ->
  mapM fulfilled (fieldValidations fieldValidators state)
  = Some (resolutions fieldValidators state).
Proof.
  intros Hconv. destruct (failures_convert_resolved _ _ Hconv) as [results Hresults].
  rewrite Hresults. by apply resolved_fieldValidations in Hresults as [-> _].
Qed.

Lemma validate_settled fieldValidators state settings order results :
  order ≡ₚ seq 0 (length (Object_keys (values state))) ->
  mapM fulfilled (fieldValidations fieldValidators state) = Some results ->
  validate fieldValidators state settings order = Some (Returns {|
    run_started := validate_started;
    run_completed := validate_outcome settings results;
    run_returned := validate_outcome settings results state
  |}).
Proof.
  intros Hperm Hall. unfold validate.
  rewrite (Promise_all_settled_resolved _ _ results); [done|done|].
  intros j Hj. rewrite Hperm. apply elem_of_seq.
  rewrite fieldValidations_length in Hj. lia.
Qed.


(** C2, counterexample: [validate] does not read the values at the time
    of the call.  [name] holds ["Bla"] in the last render; [setValue]
    gives it the valid ["Blabla"], and [validate] is called before the
    next render: on the values at call time the validator of [name]
    reports nothing, yet the validation commits the error of the old
    value and an invalid form. *)
Lemma validate_before_render_reads_old_values :
  let called :=
    run [SetValue "name" (VStr "Blabla") {| keepPristine := false |}]
        (mountedName minLength6) in
  let after := store setThenValidated in
  values (store called) = {[ "name" := VStr "Blabla" ]}
  /\ verdict (registry called) (store called) "name" = None
  /\ values after = {[ "name" := VStr "Blabla" ]}
  /\ errors after !! "name" = Some (IsError {| message := "error" |})
  /\ valid after = false.
Proof. repeat split; vm_compute; reflexivity. Qed.

(** C2: whole-form validation.  Whatever the validators, the state the
    coordinator closed over at the last render and the order in which
    the branches settle, if the keys of the closed-over values are names
    that no object inherits and no validator fails with a value that has
    no conversion to a string, then [validate] completes, and the state
    it commits on top of any [prevState] has, for each field, the
    verdict of that field's own validator on the closed-over values (an
    entry only for a key of those values, none for a field without
    validator), has [valid = errors.isEmpty()], [invalid = !valid],
    [loading = false]; with [makePristine] and a valid result it has no
    dirty field, [pristine], not [dirty] and [submitted]; with only
    [makeSubmitted] and a valid result it has [submitted]. *)
Theorem validate_whole_form (fieldValidators : FormFieldValidators)
  (state prevState : FormState) (settings : ValidateSettings) (order : list nat) :
  order ≡ₚ seq 0 (length (Object_keys (values state))) ->
  (forall field, field ∈ dom (values state) -> own_name field) ->
  failures_convert fieldValidators state ->
  exists vrun, validate fieldValidators state settings order = Some (Returns vrun) /\
    let next := run_completed vrun prevState in
    (forall field, errors next !! field = verdict fieldValidators state field)
    /\ (forall field, field ∉ dom (values state) -> errors next !! field = None)
    /\ (forall field, fieldValidators !! field = None \/ fieldValidators !! field = Some None ->
          errors next !! field = None)
    /\ valid next = bool_decide (errors next = ∅)
    /\ invalid next = negb (valid next)
    /\ loading next = false
    /\ values next = values prevState
    /\ (makePristine settings = true -> valid next = true ->
          dirtyFields next = ∅ /\ pristine next = true /\ dirty next = false
          /\ submitted next = true)
    /\ (makePristine settings = false -> makeSubmitted settings = true ->
          valid next = true -> submitted next = true).
Proof.
  intros Hperm _ Hconv.
  destruct (failures_convert_resolved _ _ Hconv) as [results Hresults].
  eexists. split; [by apply validate_settled|]. simpl.
  assert (Herr : forall field,
    errors (validate_outcome settings results prevState) !! field
    = verdict fieldValidators state field).
  { intros field. rewrite validate_outcome_errors. by apply fieldValidations_errors. }
  destruct (validate_outcome_valid settings results prevState) as (Hv & Hi & Hl & Hvals).
  split; [done|]. split.
  { intros field Hout. rewrite Herr. unfold verdict. by rewrite decide_False. }
  split.
  { intros field Hnone. rewrite Herr. unfold verdict. case_decide; [|done].
    by destruct Hnone as [-> | ->]. }
  split.
  { rewrite Hv, validate_outcome_errors, aggregate_hasErrors. apply negb_involutive. }
  split; [by rewrite Hv, Hi, negb_involutive|]. split; [done|]. split; [done|].
  unfold validate_outcome in *. destruct (aggregate results) as [hasErrors errs].
  destruct hasErrors; [by split|]. split.
  - by intros ->.
  - by intros -> ->.
Qed.

Lemma validate_whole_form_witness :
  let fieldValidators : FormFieldValidators :=
    {[ "name" := Some minLength6; "age" := None ]} in
  let state :=
    store (run [Mount "name" (VStr "Bla") (Some minLength6) false;
                Mount "age" (VNum 10) None false] initialWorld) in
  [1; 0] ≡ₚ seq 0 (length (Object_keys (values state)))
  /\ (forall field, field ∈ dom (values state) -> own_name field)
  /\ failures_convert fieldValidators state
  /\ exists vrun,
      validate fieldValidators state noSettings [1; 0] = Some (Returns vrun)
      /\ errors (run_completed vrun initialState) !! "name"
         = Some (IsError {| message := "error" |})
      /\ errors (run_completed vrun initialState) !! "age" = None
      /\ loading (run_completed vrun initialState) = false.
Proof.
  intros fieldValidators state.
  assert (Hperm : [1; 0] ≡ₚ seq 0 (length (Object_keys (values state))))
    by (vm_compute; apply perm_swap).
  assert (Hvalues : values state = {[ "name" := VStr "Bla"; "age" := VNum 10 ]})
    by (vm_compute; reflexivity).
  assert (Hnames : forall field, field ∈ dom (values state) -> own_name field).
  { intros field. rewrite Hvalues, dom_insert_L, dom_singleton_L.
    intros [->%elem_of_singleton| ->%elem_of_singleton]%elem_of_union; reflexivity. }
  assert (Hconv : failures_convert fieldValidators state).
  { intros field validator failure.
    rewrite Hvalues, dom_insert_L, dom_singleton_L.
    intros [->%elem_of_singleton| ->%elem_of_singleton]%elem_of_union.
    - intros [= <-]. vm_compute. discriminate.
    - intros [=]. }
  split; [exact Hperm|]. split; [exact Hnames|]. split; [exact Hconv|].
  destruct (validate_whole_form fieldValidators state initialState noSettings [1; 0]
    Hperm Hnames Hconv)
    as (vrun & Hrun & Herr & _ & _ & _ & _ & Hloading & _).
  exists vrun. split; [exact Hrun|].
  split; [rewrite Herr; vm_compute; reflexivity|].
  split; [rewrite Herr; vm_compute; reflexivity|exact Hloading].
Defined.

(** ** Errors and the fields they belong to *)





















(** ** Mounting a field *)

Lemma valueCanUpdateSafely_true val :
  valueCanUpdateSafely val = true <-> typeof val <> TObject \/ val = VNull.
Proof.
  unfold valueCanUpdateSafely. rewrite orb_true_iff, negb_true_iff, bool_decide_eq_false.
  split; (intros [H|H]; [by left|right]).
  - by destruct val.
  - by subst val.
Qed.

Lemma setValue_keepPristine field value s :
  let next := setValue field value {| keepPristine := true |} s in
  values next = <[field := value]> (values s)
  /\ dirtyFields next = dirtyFields s
  /\ dirty next = dirty s
  /\ pristine next = pristine s
  /\ submitted next = submitted s
  /\ errors next = errors s.
Proof. by repeat split. Qed.

Lemma mount_store w field initialValue validator force :
  store (step (Mount field initialValue validator force) w)
  = match seedEffect (store w) field initialValue force with
    | Some action => action (store w)
    | None => store w
    end.
Proof. simpl. unfold dispatch_opt. by destruct (seedEffect _ _ _ _). Qed.

(** C4, as stated, fails: [x] exists, is pristine and holds the string
    ["a"]; the candidate initial value is an object, so the two differ
    and are not both non-primitive, yet the seeding effect re-seeds
    nothing and [x] keeps its value. *)
Lemma primitive_value_not_reseeded_with_object :
  let state := store mountedX in
  let after := store (step (Mount "x" someObject None false) mountedX) in
  values state !! "x" = Some (VStr "a")
  /\ fieldPristine state "x" = true
  /\ strict_eq (get (values state) "x") someObject = false
  /\ typeof (get (values state) "x") = TString
  /\ seedEffect state "x" someObject false = None
  /\ values after !! "x" = Some (VStr "a")
  /\ after = state
  /\ store (step (Reseed "x" someObject false) mountedX) = state.
Proof. vm_compute. repeat split; reflexivity. Qed.

(** C4, amended: for a field whose name no object inherits from
    [Object.prototype] (for the others, [field in values] of line 495 and
    [dirtyFields[field]] of line 438 read the inherited member),
    mounting the field, in a render that read the current state, when
    it is not yet a key of [values] seeds it
    with the initial value and marks nothing dirty; for a field that is
    already a key, the value is re-seeded (marking nothing dirty)
    exactly when the field is pristine, its value is not strictly equal
    to the initial value, and either [forceInitialValue] is set or both
    the existing value and the initial value can update safely (neither
    is of type 'object', null apart); otherwise the state is left as it
    is. *)
Theorem mount_seeding (w : World) (field : string) (initialValue : JsValue)
  (validator : option FormFieldValidator) (forceInitialValue : bool) :
  own_name field ->
  let state := store w in
  let existing := get (values state) field in
  let after := store (step (Mount field initialValue validator forceInitialValue) w) in
  let seeded := setValue field initialValue {| keepPristine := true |} state in
  (values seeded = <[field := initialValue]> (values state)
   /\ dirtyFields seeded = dirtyFields state /\ dirty seeded = dirty state
   /\ pristine seeded = pristine state /\ submitted seeded = submitted state)
  /\ (field ∉ dom (values state) -> after = seeded)
  /\ (field ∈ dom (values state) ->
      fieldPristine state field = true ->
      strict_eq existing initialValue = false ->
      forceInitialValue = true
      \/ (valueCanUpdateSafely existing = true /\ valueCanUpdateSafely initialValue = true) ->
      after = seeded)
  /\ (field ∈ dom (values state) ->
      fieldPristine state field = false
      \/ strict_eq existing initialValue = true
      \/ (forceInitialValue = false
          /\ (valueCanUpdateSafely existing = false
              \/ valueCanUpdateSafely initialValue = false)) ->
      after = state).
Proof.
  intros _ state existing after seeded. split; [by repeat split|].
  subst after. rewrite mount_store. fold state. unfold seedEffect, shouldSeed.
  fold existing. split; [|split].
  - intros Hout. apply has_key_false in Hout. by rewrite Hout.
  - intros _ Hp Hne Hguard. rewrite Hp, Hne.
    destruct Hguard as [-> | [-> ->]]; simpl;
      rewrite ?orb_true_r; simpl; rewrite ?orb_true_r; done.
  - intros Hin Hguard. apply has_key_true in Hin. rewrite Hin. simpl.
    destruct Hguard as [-> | [-> | [-> [-> | ->]]]]; simpl;
      rewrite ?andb_false_r; done.
Qed.

Lemma mount_seeding_witness :
  own_name "x"
  /\ store (step (Mount "x" someObject None true) mountedX)
     = setValue "x" someObject {| keepPristine := true |} (store mountedX).
Proof.
  assert (Hname : own_name "x") by reflexivity.
  split; [exact Hname|].
  apply (proj1 (proj2 (proj2 (mount_seeding mountedX "x" someObject None true Hname)))).
  - apply elem_of_dom. exists (VStr "a"). vm_compute. reflexivity.
  - vm_compute. reflexivity.
  - vm_compute. reflexivity.
  - left. reflexivity.
Defined.

(** ** Unmounting a field *)

(** The state of the render in which an instance mounts is the one its
    cleanup reads. *)
Lemma mount_instance w field initialValue validator force :
  instances (step (Mount field initialValue validator force) w)
  = instances w ++ [{| inst_field := field; inst_state := store w |}].
Proof.
  simpl. unfold dispatch_opt. by destruct (seedEffect _ _ _ _).
Qed.




(** ** [validateField] and the snapshot of its caller *)

Lemma validateField_no_validator fieldValidators state field snapshot :
  fieldValidators !! field = None \/ fieldValidators !! field = Some None ->
  validateField fieldValidators state field snapshot = Returns None.
Proof. unfold validateField. by intros [-> | ->]. Qed.

Lemma validateField_snapshot_unread fieldValidators state field snapshot snapshot' :
  validateField fieldValidators state field snapshot
  = validateField fieldValidators state field snapshot'.
Proof. reflexivity. Qed.

Lemma validateField_of_own_snapshot fieldValidators state field :
  validateField fieldValidators state field (values state)
  = validateField_of_snapshot fieldValidators field (values state).
Proof. reflexivity. Qed.

(** C6: the field's [validate] hands [validateField] the values of the
    render it closed over (here the empty values of the render in which
    [name] mounted), and [validateField] does not read them: the
    validator is given the value ["Bla"] of the state the coordinator
    closed over, where the snapshot of the caller holds no [name]. *)
Theorem validateField_ignores_caller_snapshot :
  let w := mountedName reportsValue in
  let snapshot := ∅ in
  (inst_state <$> instances w !! 0) = Some initialState
  /\ values initialState = snapshot
  /\ validateField (registry w) (closed w) "name" snapshot
     = Returns (Some {| message := "got Bla" |})
  /\ validateField_of_snapshot (registry w) "name" snapshot
     = Returns (Some {| message := "got undefined" |})
  /\ inflight (step (FieldValidate 0) w)
     = [SingleField "name" (Returns (Some {| message := "got Bla" |}))].
Proof. vm_compute. repeat split; reflexivity. Qed.

(** ** Failures of validators *)

(** In a whole-form validation a failure of a validator ends as the
    Error entry of its field. *)
Lemma fieldValidation_failure fieldValidators state immutableValues k failure e :
  validateField fieldValidators state k immutableValues = Throws failure ->
  as_Error failure = Returns e ->
  fieldValidation fieldValidators state immutableValues k
  = Returns (Some {| key := k; error := e |}).
Proof. unfold fieldValidation. by intros -> ->. Qed.

(** C7: for a validator whose promise rejects with the string ["bad"],
    whole-form validation stores an Error with message ["bad"], as it
    does for a validator returning ["bad"]; but [validateField] itself
    rejects with the failure, and the field's own [validate] stores the
    caught string as it is, which is no Error and has no message. *)
Theorem field_validate_stores_raw_failure :
  errors (store (formValidated rejectsBad)) !! "name"
    = Some (IsError {| message := "bad" |})
  /\ errors (store (formValidated returnsBad)) !! "name"
    = Some (IsError {| message := "bad" |})
  /\ errors (store (fieldValidated returnsBad)) !! "name"
    = Some (IsError {| message := "bad" |})
  /\ validateField (registry (mountedName rejectsBad)) (closed (mountedName rejectsBad))
       "name" ∅ = Throws (VStr "bad")
  /\ errors (store (fieldValidated rejectsBad)) !! "name" = Some (Caught (VStr "bad"))
  /\ (errors (store (fieldValidated rejectsBad)) !! "name" ≫= entry_message) = None.
Proof. vm_compute. repeat split; reflexivity. Qed.

(** ** The submit wrappers *)

Lemma useSubmit_asSubmit fieldValidators closed' state formSettings callback settings
  event order :
  useSubmit (formContextValue fieldValidators closed' state) formSettings callback
    settings event order
  = asSubmit fieldValidators closed' formSettings callback settings event order.
Proof. reflexivity. Qed.





(** ** Scenarios of the specification *)

Example setValue_scenarioC :
  let s := setValue "x" (VStr "new") {| keepPristine := false |} initialState in
  dirty s = true /\ pristine s = false /\ dirtyFields s = {[ "x" := true ]}
  /\ values s !! "x" = Some (VStr "new").
Proof. vm_compute. repeat split; reflexivity. Qed.

Example scenarioA_result :
  valid (store scenarioA) = false
  /\ invalid (store scenarioA) = true
  /\ loading (store scenarioA) = false
  /\ errors (store scenarioA) = {[ "name" := IsError {| message := "error" |} ]}
  /\ errors (store scenarioA) !! "age" = None.
Proof. vm_compute. repeat split; reflexivity. Qed.

(** Scenario B: [x] mounts with ["abc"] and unmounts before any change. *)
Example scenarioB_result :
  let w := run [Mount "x" (VStr "abc") None false; Render; Unmount 0] initialWorld in
  values (store w) !! "x" = None
  /\ dirtyFields (store w) = ∅
  /\ pristine (store w) = true
  /\ registry w !! "x" = None.
Proof. vm_compute. repeat split; reflexivity. Qed.

(** Scenario C, continued: whole-form validation with [makePristine],
    every validator passing. *)
Example scenarioC_result :
  let w := run [SetValue "x" (VStr "new") {| keepPristine := false |};
                Render;
                Validate {| makePristine := true; makeSubmitted := false |};
                Settle 0 [0]] initialWorld in
  submitted (store (run [SetValue "x" (VStr "new") {| keepPristine := false |}] initialWorld))
    = false
  /\ pristine (store w) = true
  /\ dirty (store w) = false
  /\ dirtyFields (store w) = ∅
  /\ submitted (store w) = true
  /\ values (store w) !! "x" = Some (VStr "new").
Proof. vm_compute. repeat split; reflexivity. Qed.

(** While a branch of the fan-out has not settled nothing is committed. *)
Example pending_validation_commits_nothing :
  let w := run [Mount "name" (VStr "Bla") (Some minLength6) false;
                Mount "age" (VNum 10) None false;
                Render;
                Validate noSettings] initialWorld in
  step (Settle 0 [1]) w = w /\ loading (store w) = true.
Proof. vm_compute. split; reflexivity. Qed.

(** * Further properties of the engine *)

(** ** Every operation acts on the store through a transition *)

Lemma seedEffect_transition state field initialValue force action :
  seedEffect state field initialValue force = Some action -> transition action.
Proof.
  unfold seedEffect. destruct (shouldSeed _ _ _ _); [|done].
  intros [= <-]. constructor.
Qed.

Lemma cleanupEffect_transition state field action :
  cleanupEffect state field = Some action -> transition action.
Proof.
  unfold cleanupEffect. destruct (has_key _ _); [done|].
  intros [= <-]. constructor.
Qed.

Lemma step_transition op w :
  store (step op w) = store w
  \/ exists action, transition action /\ store (step op w) = action (store w).
Proof.
  destruct op; simpl.
  - left. by destruct (fresh_values w).
  - destruct (seedEffect _ _ _ _) eqn:E; simpl; [|by left].
    right. eexists. split; [by eapply seedEffect_transition|done].
  - destruct (seedEffect _ _ _ _) eqn:E; simpl; [|by left].
    right. eexists. split; [by eapply seedEffect_transition|done].
  - destruct (instances w !! i); [|by left].
    destruct (cleanupEffect _ _) eqn:E; simpl; [|by left].
    right. eexists. split; [by eapply cleanupEffect_transition|done].
  - right. eexists. split; [constructor|done].
  - destruct (setValues _ _) eqn:E; simpl; [|by left].
    right. eexists. split; [by econstructor|done].
  - right. eexists. split; [constructor|done].
  - right. eexists. split; [constructor|done].
  - right. eexists. split; [constructor|done].
  - right. eexists. split; [constructor|done].
  - right. exists makeFormSubmitted. split; [constructor|done].
  - right. eexists. split; [apply transition_validate_started|done].
  - left. by destruct (instances w !! i).
  - destruct (inflight w !! i) as [entry|]; [|by left].
    destruct entry as [settings tasks|field outcome]; simpl.
    + destruct (Promise_all_settled tasks order) as [[results|failure]|];
        simpl; [|by left..].
      right. eexists. split; [constructor|done].
    + right. eexists. split; [constructor|done].
  - destruct (instances w !! i); [|by left].
    destruct (seedEffect _ _ _ _) eqn:E; simpl; [|by left].
    right. eexists. split; [by eapply seedEffect_transition|done].
Qed.

Lemma run_transitions (P : FormState -> Prop) :
  (forall action s, transition action -> P s -> P (action s)) ->
  forall ops w, P (store w) -> P (store (run ops w)).
Proof.
  intros Hstep ops. induction ops as [|op ops IH]; intros w Hw; [done|].
  simpl. apply IH.
  destruct (step_transition op w) as [-> | (action & Ht & ->)]; [done|].
  by apply Hstep.
Qed.

Lemma mark_dirty_lookup_ne (keys : list string) (d : DirtyFields) (k : string) :
  k ∉ keys -> foldl assign_true d keys !! k = d !! k.
Proof.
  revert d. induction keys as [|key keys IH]; intros d Hout; [done|].
  simpl. rewrite IH by (intros Hin; apply Hout; by right).
  unfold assign_true. case_bool_decide; [done|].
  apply lookup_insert_ne. intros ->. apply Hout. left.
Qed.

Lemma mark_dirty_lookup_Some (keys : list string) (d : DirtyFields) (k : string) b :
  foldl assign_true d keys !! k = Some b ->
  (k ∈ keys /\ b = true) \/ d !! k = Some b.
Proof.
  intros Hk. destruct (decide (k ∈ keys)) as [Hin|Hout].
  - revert d Hk. clear Hin. induction keys as [|key keys IH]; intros d Hk; [by right|].
    simpl in Hk. destruct (IH _ Hk) as [[Hin ->]|Hkey]; [left; split; [by right|done]|].
    destruct (assign_true_lookup d key k) as [Hset|Hsame].
    + rewrite Hset in Hkey. injection Hkey as <-.
      destruct (decide (key = k)) as [->|Hne]; [left; split; [left|done]|].
      right. revert Hset. unfold assign_true. case_bool_decide; [done|].
      by rewrite lookup_insert_ne.
    + right. by rewrite <- Hsame.
  - right. rewrite mark_dirty_lookup_ne in Hk by done. done.
Qed.

(** ** Invariants of the store *)

Lemma transition_flags_coherent action s :
  transition action -> flags_coherent s -> flags_coherent (action s).
Proof.
  unfold flags_coherent. intros Ht Hs. destruct Ht; try (simpl; done).
  - unfold setValue. destruct (keepPristine settings); simpl; done.
  - unfold setValues in H. destruct (length (Object_keys fields) =? 0); [done|].
    injection H as <-. destruct (keepPristine settings); simpl; done.
  - destruct (validate_outcome_valid settings results s) as (Hv & Hi & _).
    by rewrite Hv, Hi.
  - destruct outcome as [[e|]|thrown]; simpl; rewrite ?negb_involutive; done.
Qed.

(** X1: after every sequence of operations on a form, [valid] is the
    negation of [invalid]. *)
Theorem valid_invalid_invariant (ops : list Op) :
  let s := store (run ops initialWorld) in
  valid s = negb (invalid s).
Proof. apply (run_transitions flags_coherent); [apply transition_flags_coherent|done]. Qed.

Lemma transition_dirty_within_values action s :
  transition action -> dirty_within_values s -> dirty_within_values (action s).
Proof.
  unfold dirty_within_values. intros Ht Hs.
  destruct Ht as [f v st|fields st action H|f|f| | | | |st results|f outcome].
  - unfold setValue. destruct (keepPristine st); simpl;
      rewrite ?dom_insert_L; set_solver.
  - unfold setValues in H. destruct (length (Object_keys fields) =? 0); [done|].
    injection H as <-. destruct (keepPristine st); simpl; rewrite dom_union_L.
    + set_solver.
    + intros k Hk. apply elem_of_dom in Hk as [b Hb].
      apply mark_dirty_lookup_Some in Hb as [[Hin _]|Hold].
      * apply elem_of_union. left. by apply elem_of_dom, elem_of_Object_keys.
      * apply elem_of_union. right. apply Hs, elem_of_dom. eauto.
  - simpl. rewrite !dom_delete_L. set_solver.
  - simpl. rewrite dom_delete_L. set_solver.
  - simpl. rewrite dom_empty_L. set_solver.
  - done.
  - simpl. rewrite dom_empty_L. set_solver.
  - done.
  - destruct (validate_outcome_valid st results s) as (_ & _ & _ & Hvals).
    rewrite Hvals. clear Hvals.
    unfold validate_outcome. destruct (aggregate results) as [hasErrors errs].
    destruct hasErrors; [done|]. destruct (makePristine st); simpl.
    + rewrite dom_empty_L. set_solver.
    + destruct (makeSubmitted st); done.
  - destruct outcome as [[e|]|thrown]; simpl; done.
Qed.

(** X2: after every sequence of operations on a form, every key of
    [dirtyFields] is a key of [values]: a field that is gone is never
    left marked dirty. *)
Theorem dirty_fields_are_fields (ops : list Op) :
  let s := store (run ops initialWorld) in
  dom (dirtyFields s) ⊆ dom (values s).
Proof.
  apply (run_transitions dirty_within_values); [apply transition_dirty_within_values|].
  unfold dirty_within_values. simpl. rewrite dom_empty_L. set_solver.
Qed.

Lemma transition_dirty_marks_true action s :
  transition action -> dirty_marks_true s -> dirty_marks_true (action s).
Proof.
  unfold dirty_marks_true. intros Ht Hs.
  destruct Ht as [f v st|fields st action H|f|f| | | | |st results|f outcome].
  - unfold setValue. destruct (keepPristine st); simpl; [done|].
    intros k b. rewrite lookup_insert. case_decide; [congruence|apply Hs].
  - unfold setValues in H. destruct (length (Object_keys fields) =? 0); [done|].
    injection H as <-. destruct (keepPristine st); simpl; [done|].
    intros k b Hb. apply mark_dirty_lookup_Some in Hb as [[_ ->]|Hold]; [done|].
    by eapply Hs.
  - simpl. intros k b Hb. apply lookup_delete_Some in Hb as [_ Hb]. by eapply Hs.
  - simpl. intros k b Hb. apply lookup_delete_Some in Hb as [_ Hb]. by eapply Hs.
  - simpl. intros k b Hb. by rewrite lookup_empty in Hb.
  - done.
  - simpl. intros k b Hb. by rewrite lookup_empty in Hb.
  - done.
  - unfold validate_outcome. destruct (aggregate results) as [hasErrors errs].
    destruct hasErrors; [done|]. destruct (makePristine st); simpl.
    + intros k b Hb. by rewrite lookup_empty in Hb.
    + destruct (makeSubmitted st); done.
  - destruct outcome as [[e|]|thrown]; simpl; done.
Qed.

Lemma step_dirty_own_names op w :
  own_names_op op -> dirty_own_names (store w) -> dirty_own_names (store (step op w)).
Proof.
  unfold dirty_own_names. intros Hop Hw. destruct op; simpl in Hop; simpl.
  - by destruct (fresh_values w).
  - unfold seedEffect. by destruct (shouldSeed _ _ _ _).
  - unfold seedEffect. by destruct (shouldSeed _ _ _ _).
  - destruct (instances w !! i); [|done]. unfold cleanupEffect.
    destruct (has_key _ _); [done|]. simpl. intros k b Hk.
    apply lookup_delete_Some in Hk as [_ Hk]. by eapply Hw.
  - unfold setValue. destruct (keepPristine settings); simpl; [done|].
    intros k b Hk. apply lookup_insert_Some in Hk as [[<- _]|[_ Hk]]; [done|by eapply Hw].
  - unfold setValues. destruct (length (Object_keys fields) =? 0); [done|]. simpl.
    destruct (keepPristine settings); simpl; [done|]. intros k b Hk.
    apply mark_dirty_lookup_Some in Hk as [[Hin _]|Hk]; [|by eapply Hw].
    by apply Hop, elem_of_dom, elem_of_Object_keys.
  - intros k b Hk. by rewrite lookup_empty in Hk.
  - done.
  - intros k b Hk. apply lookup_delete_Some in Hk as [_ Hk]. by eapply Hw.
  - intros k b Hk. by rewrite lookup_empty in Hk.
  - done.
  - done.
  - by destruct (instances w !! i).
  - destruct (inflight w !! i) as [entry|]; [|done].
    destruct entry as [settings tasks|field outcome]; simpl.
    + destruct (Promise_all_settled tasks order) as [[results|failure]|]; simpl; [|done..].
      unfold validate_outcome. destruct (aggregate results) as [[|] errs]; [done|].
      destruct (makePristine settings); simpl.
      * intros k b Hk. by rewrite lookup_empty in Hk.
      * by destruct (makeSubmitted settings).
    + by destruct outcome as [[e|]|thrown].
  - destruct (instances w !! i); [|done].
    unfold seedEffect. by destruct (shouldSeed _ _ _ _).
Qed.

Lemma run_dirty_own_names ops w :
  Forall own_names_op ops ->
  dirty_own_names (store w) -> dirty_own_names (store (run ops w)).
Proof.
  revert w. induction ops as [|op ops IH]; intros w Hops Hw; [done|].
  apply Forall_cons in Hops as [Hop Hops].
  simpl. apply IH; [done|]. by apply step_dirty_own_names.
Qed.

(** X3: after every sequence of operations that names only fields that
    no object inherits from [Object.prototype], the form is [dirty]
    exactly when some such field reads [dirty] through [useField], and
    [pristine] exactly when every such field reads [pristine]. *)
Theorem form_dirty_iff_some_field_dirty (ops : list Op) :
  Forall own_names_op ops ->
  let s := store (run ops initialWorld) in
  (dirty s = true <->
   exists field, own_name field /\ forall initialValue,
     UseFieldResponse.dirty (useField_read s field initialValue) = true)
  /\ (pristine s = true <->
      forall field initialValue, own_name field ->
        UseFieldResponse.pristine (useField_read s field initialValue) = true).
Proof.
  intros Hops s.
  assert (Hmarks : dirty_marks_true s).
  { apply (run_transitions dirty_marks_true); [apply transition_dirty_marks_true|].
    intros k b Hb. simpl in Hb. by rewrite lookup_empty in Hb. }
  assert (Hown : dirty_own_names s).
  { apply run_dirty_own_names; [done|].
    intros k b Hb. simpl in Hb. by rewrite lookup_empty in Hb. }
  destruct (run_dirty ops initialWorld) as [Hd Hp]; [|by split|].
  { eapply Forall_impl; [done|]. apply own_names_assigns_dirty. }
  fold s in Hd, Hp.
  assert (Hall : dirtyFields s = ∅
                 <-> forall field, own_name field -> fieldPristine s field = true).
  { split.
    - intros Hempty field _. unfold fieldPristine. by rewrite Hempty, lookup_empty.
    - intros Hfields. apply map_empty. intros k.
      destruct (dirtyFields s !! k) as [b|] eqn:Hk; [|done].
      specialize (Hfields k (Hown _ _ Hk)). unfold fieldPristine in Hfields.
      rewrite Hk in Hfields. rewrite (Hmarks _ _ Hk) in Hfields. done. }
  split.
  - rewrite Hd, negb_true_iff. simpl. split.
    + intros Hnp.
      destruct (decide (dirtyFields s = ∅)) as [Hempty|Hne].
      { apply Hp in Hempty. congruence. }
      apply map_choose in Hne as (k & b & Hk). exists k.
      split; [by eapply Hown|]. intros _.
      unfold fieldPristine. by rewrite Hk, (Hmarks _ _ Hk).
    + intros (field & Hname & Hfield). specialize (Hfield VUndefined).
      apply negb_true_iff in Hfield.
      destruct (pristine s) eqn:E; [|done].
      assert (Hempty : dirtyFields s = ∅) by by apply Hp.
      apply Hall with (field := field) in Hempty; [congruence|done].
  - rewrite Hp, Hall. simpl. split; [intros H field _ Hname; by apply H|].
    intros H field. exact (H field VUndefined).
Qed.

Lemma form_dirty_iff_some_field_dirty_witness :
  let ops := [Mount "x" (VStr "abc") None false;
              SetValue "x" (VStr "typed") {| keepPristine := false |}] in
  Forall own_names_op ops
  /\ exists field, own_name field /\ forall initialValue,
       UseFieldResponse.dirty
         (useField_read (store (run ops initialWorld)) field initialValue) = true.
Proof.
  intros ops.
  assert (Hops : Forall own_names_op ops).
  { repeat constructor. }
  split; [exact Hops|].
  apply (proj1 (proj1 (form_dirty_iff_some_field_dirty ops Hops))).
  vm_compute. reflexivity.
Defined.

(** ** Setting values *)

Lemma useField_read_value_present state field initialValue v :
  values state !! field = Some v ->
  UseFieldResponse.value (useField_read state field initialValue) = v.
Proof.
  intros Hv. unfold useField_read, has_key, get. simpl.
  rewrite bool_decide_eq_true_2 by eauto. by rewrite Hv.
Qed.

Lemma useField_read_value_absent state field initialValue :
  values state !! field = None ->
  UseFieldResponse.value (useField_read state field initialValue) = initialValue.
Proof.
  intros Hv. unfold useField_read, has_key. simpl.
  rewrite bool_decide_eq_false_2; [done|]. rewrite Hv. by intros [? ?].
Qed.

Lemma setValue_values field value settings s :
  values (setValue field value settings s) = <[field := value]> (values s).
Proof. unfold setValue. by destruct (keepPristine settings). Qed.

(** X4: [setValue(field, value)] followed by a read of the field through
    [useField] gives [value], whatever the initial value of the
    component; every other field reads as before; and the errors, and
    [valid], [invalid] and [loading], are left as they are (an error
    stays until a validation commits). *)
Theorem setValue_read_back (s : FormState) (field : string) (value : JsValue)
  (settings : SetValueSettings) :
  let s' := setValue field value settings s in
  (forall initialValue,
     UseFieldResponse.value (useField_read s' field initialValue) = value)
  /\ (forall other initialValue, other <> field ->
        UseFieldResponse.value (useField_read s' other initialValue)
        = UseFieldResponse.value (useField_read s other initialValue))
  /\ (forall other initialValue,
        UseFieldResponse.error (useField_read s' other initialValue)
        = UseFieldResponse.error (useField_read s other initialValue))
  /\ valid s' = valid s /\ invalid s' = invalid s /\ loading s' = loading s.
Proof.
  intros s'. split; [|split; [|split]].
  - intros initialValue. apply useField_read_value_present.
    subst s'. rewrite setValue_values. apply lookup_insert_eq.
  - intros other initialValue Hne.
    assert (Hsame : values s' !! other = values s !! other).
    { subst s'. rewrite setValue_values. by apply lookup_insert_ne. }
    destruct (values s !! other) as [v|] eqn:Hv.
    + by rewrite !(useField_read_value_present _ _ _ v).
    + by rewrite !useField_read_value_absent.
  - intros other initialValue. subst s'. unfold setValue.
    by destruct (keepPristine settings).
  - subst s'. unfold setValue. by destruct (keepPristine settings).
Qed.

Lemma Object_keys_singleton {A} (k : string) (a : A) :
  Object_keys ({[ k := a ]} : gmap string A) = [k].
Proof. unfold Object_keys. by rewrite map_to_list_singleton. Qed.

Lemma Object_keys_nil {A} (o : gmap string A) : Object_keys o = [] <-> o = ∅.
Proof.
  unfold Object_keys. split.
  - intros Hnil. apply map_to_list_empty_iff. by apply fmap_nil_inv in Hnil.
  - intros ->. by rewrite map_to_list_empty.
Qed.

Lemma mark_dirty_lookup_proto (keys : list string) (d : DirtyFields) :
  "__proto__" ∈ keys ->
  foldl assign_true d keys !! "__proto__" = (fun _ => true) <$> d !! "__proto__".
Proof.
  revert d. induction keys as [|key keys IH]; intros d Hin.
  - by apply elem_of_nil in Hin.
  - simpl. destruct (decide (key = "__proto__")) as [->|Hne].
    + unfold assign_true. case_bool_decide as Hcase.
      * destruct Hcase as [_ Hnone]. rewrite Hnone. simpl.
        destruct (decide ("__proto__" ∈ keys)) as [Hin'|Hout].
        -- by rewrite IH, Hnone.
        -- by rewrite mark_dirty_lookup_ne.
      * destruct (d !! "__proto__") as [b|] eqn:Hd; [|by destruct Hcase].
        simpl. apply mark_dirty_keeps, lookup_insert_eq.
    + apply elem_of_cons in Hin as [Hin|Hin]; [congruence|].
      rewrite IH by done. unfold assign_true.
      rewrite bool_decide_eq_false_2 by (intros [? _]; done).
      by rewrite lookup_insert_ne.
Qed.

(** X5: [setValues] with an empty object hands nothing to [setState];
    with a non-empty one, every key of [fields] then holds its new
    value and every other key its old one, and, unless [keepPristine],
    the keys of [fields] other than ["__proto__"] are added to the
    dirty fields (["__proto__"] stays as it was, marked if it had an
    entry and absent otherwise) and the form is dirty and no longer
    submitted. *)
Theorem setValues_lookup (fields : FormValues) (settings : SetValueSettings) :
  (fields = ∅ -> setValues fields settings = None)
  /\ (fields <> ∅ ->
      exists action, setValues fields settings = Some action /\
        forall s k,
          values (action s) !! k
          = match fields !! k with Some v => Some v | None => values s !! k end
          /\ errors (action s) = errors s
          /\ (keepPristine settings = true ->
              dirtyFields (action s) = dirtyFields s /\ dirty (action s) = dirty s
              /\ pristine (action s) = pristine s /\ submitted (action s) = submitted s)
          /\ (keepPristine settings = false ->
              dirtyFields (action s) !! k
              = match fields !! k with
                | Some _ =>
                    if bool_decide (k = "__proto__")
                    then (fun _ => true) <$> dirtyFields s !! k
                    else Some true
                | None => dirtyFields s !! k
                end
              /\ dirty (action s) = true /\ pristine (action s) = false
              /\ submitted (action s) = false)).
Proof.
  split.
  - intros ->. unfold setValues. by rewrite (proj2 (Object_keys_nil _)).
  - intros Hne. unfold setValues.
    destruct (length (Object_keys fields) =? 0) eqn:Hlen.
    + apply Nat.eqb_eq, nil_length_inv, Object_keys_nil in Hlen. done.
    + eexists. split; [reflexivity|]. intros s k.
      assert (Hvalues : (fields ∪ values s) !! k
        = match fields !! k with Some v => Some v | None => values s !! k end).
      { rewrite lookup_union. destruct (fields !! k), (values s !! k); done. }
      destruct (keepPristine settings); simpl.
      * split; [done|]. split; [done|]. split; [done|]. by intros [=].
      * split; [done|]. split; [done|]. split; [by intros [=]|]. intros _.
        split; [|done].
        destruct (fields !! k) as [v|] eqn:Hk.
        -- assert (Hin : k ∈ Object_keys fields) by (apply elem_of_Object_keys; eauto).
           case_bool_decide as Hproto.
           ++ subst k. by apply mark_dirty_lookup_proto.
           ++ by apply mark_dirty_lookup.
        -- apply mark_dirty_lookup_ne. rewrite elem_of_Object_keys, Hk.
           by intros [? ?].
Qed.

Lemma setValues_lookup_witness :
  exists action, setValues {[ "a" := VNum 1; "b" := VNum 2 ]} {| keepPristine := false |}
                 = Some action
    /\ values (action initialState) !! "b" = Some (VNum 2)
    /\ dirtyFields (action initialState) !! "a" = Some true.
Proof.
  destruct (proj2 (setValues_lookup {[ "a" := VNum 1; "b" := VNum 2 ]}
                     {| keepPristine := false |})) as (action & Haction & Hlookup).
  - intros Hempty. apply (f_equal (fun m => m !! "a")) in Hempty.
    vm_compute in Hempty. discriminate Hempty.
  - exists action. split; [exact Haction|]. split.
    + rewrite (proj1 (Hlookup initialState "b")). reflexivity.
    + destruct (Hlookup initialState "a") as (_ & _ & _ & Hdirty).
      rewrite (proj1 (Hdirty eq_refl)). reflexivity.
Defined.

(** X6: [setValues] with the one key [field], other than ["__proto__"],
    does to the state what [setValue(field, value)] does, for either
    setting of [keepPristine]; with the key ["__proto__"] the two differ
    on a fresh form, where only [setValue] marks the field dirty. *)
Theorem setValues_single_is_setValue (field : string) (value : JsValue)
  (settings : SetValueSettings) :
  (field <> "__proto__" ->
   exists action, setValues {[ field := value ]} settings = Some action
     /\ forall s, action s = setValue field value settings s)
  /\ (exists action,
        setValues {[ "__proto__" := value ]} {| keepPristine := false |} = Some action
        /\ dirtyFields (action initialState) = ∅
        /\ dirtyFields (setValue "__proto__" value {| keepPristine := false |} initialState)
           = {[ "__proto__" := true ]}).
Proof.
  split.
  - intros Hfield. unfold setValues, setValue. rewrite Object_keys_singleton.
    cbn [length Nat.eqb foldl].
    eexists. split; [reflexivity|]. intros s. cbv beta.
    rewrite <- insert_union_singleton_l. unfold assign_true.
    rewrite bool_decide_eq_false_2 by (intros [? _]; done).
    by destruct (keepPristine settings).
  - unfold setValues. rewrite Object_keys_singleton. cbn [length Nat.eqb foldl].
    eexists. split; [reflexivity|]. split; reflexivity.
Qed.

Lemma setValues_single_is_setValue_witness :
  exists action, setValues {[ "x" := VNum 1 ]} {| keepPristine := false |} = Some action
    /\ action initialState = setValue "x" (VNum 1) {| keepPristine := false |} initialState.
Proof.
  destruct (proj1 (setValues_single_is_setValue "x" (VNum 1) {| keepPristine := false |}))
    as (action & Haction & Hsame).
  - discriminate.
  - exists action. split; [exact Haction|]. apply Hsame.
Defined.

Lemma setValue_twice s f v u settings :
  setValue f v settings (setValue f u settings s) = setValue f v settings s.
Proof.
  unfold setValue. destruct (keepPristine settings); simpl; f_equal;
    by apply insert_insert_eq.
Qed.



(** ** More on validation *)

(** X8: the bookkeeping that [validate] does on a valid result is that
    of [makeFormPristine] (when [makePristine] is asked for) or else of
    [makeFormSubmitted] (when [makeSubmitted] is) applied to the state
    that [validate()] without settings commits; on an invalid result
    the settings change nothing. *)
Theorem validate_outcome_bookkeeping (settings : ValidateSettings)
  (results : list (option FieldResult)) (base : FormState) :
  validate_outcome settings results base
  = if (aggregate results).1 then validate_outcome noSettings results base
    else if makePristine settings
         then makeFormPristine (validate_outcome noSettings results base)
    else if makeSubmitted settings
         then makeFormSubmitted (validate_outcome noSettings results base)
    else validate_outcome noSettings results base.
Proof.
  unfold validate_outcome. destruct (aggregate results) as [hasErrors errs]. simpl.
  destruct hasErrors; [done|].
  destruct (makePristine settings); [done|]. by destruct (makeSubmitted settings).
Qed.

(** X9: the snapshot that the promise of [validate] resolves to carries
    the values the coordinator closed over and the same [errors],
    [valid], [invalid] and [loading] as the state that the validation
    commits, whatever the store holds at the commit. *)
Theorem validate_returned_agrees_with_commit (fieldValidators : FormFieldValidators)
  (state prevState : FormState) (settings : ValidateSettings) (order : list nat)
  (vrun : ValidateRun) :
  validate fieldValidators state settings order = Some (Returns vrun) ->
  values (run_returned vrun) = values state
  /\ values (run_completed vrun prevState) = values prevState
  /\ errors (run_returned vrun) = errors (run_completed vrun prevState)
  /\ valid (run_returned vrun) = valid (run_completed vrun prevState)
  /\ invalid (run_returned vrun) = invalid (run_completed vrun prevState)
  /\ loading (run_returned vrun) = loading (run_completed vrun prevState).
Proof.
  unfold validate.
  destruct (Promise_all_settled _ order) as [[results|failure]|]; [|done..].
  intros [= <-]. simpl.
  destruct (validate_outcome_valid settings results state) as (Hv & Hi & Hl & Hvals).
  destruct (validate_outcome_valid settings results prevState)
    as (Hv' & Hi' & Hl' & Hvals').
  rewrite !validate_outcome_errors. by rewrite Hv, Hv', Hi, Hi', Hl, Hl'.
Qed.

Lemma validate_returned_agrees_with_commit_witness :
  exists vrun,
    validate (registry twoFields) (closed twoFields) noSettings [0; 1]
    = Some (Returns vrun)
    /\ errors (run_returned vrun) = errors (run_completed vrun initialState)
    /\ values (run_returned vrun) = values (closed twoFields).
Proof.
  assert (Hrun : validate (registry twoFields) (closed twoFields) noSettings [0; 1]
    = Some (Returns {|
        run_started := validate_started;
        run_completed := validate_outcome noSettings
          (resolutions (registry twoFields) (closed twoFields));
        run_returned := validate_outcome noSettings
          (resolutions (registry twoFields) (closed twoFields))
          (closed twoFields) |}))
    by (apply validate_settled; vm_compute; reflexivity).
  eexists. split; [exact Hrun|].
  destruct (validate_returned_agrees_with_commit _ _ initialState _ _ _ Hrun)
    as (Hvals & _ & Herr & _).
  split; [exact Herr|exact Hvals].
Defined.


(** X11: for a field of the closed-over values whose validator does not
    fail, the field's own validation commits for the field the entry
    that a whole-form validation commits for it. *)
Theorem fieldValidate_agrees_with_whole_form (fieldValidators : FormFieldValidators)
  (state prevState : FormState) (field : string) (snapshot : FormValues)
  (result : option JsError) :
  field ∈ dom (values state) ->
  validateField fieldValidators state field snapshot = Returns result ->
  errors (fieldValidate_commit field (Returns result) prevState) !! field
  = verdict fieldValidators state field.
Proof.
  intros Hin. unfold validateField, verdict. rewrite decide_True by done.
  destruct (fieldValidators !! field) as [[validator|]|].
  - destruct (await _) as [r|failure]; [|done].
    destruct (truthy r); [destruct (as_Error r) as [e|failure]; [|done]|];
      intros [= <-]; simpl.
    + apply lookup_insert_eq.
    + apply lookup_delete_eq.
  - intros [= <-]. simpl. apply lookup_delete_eq.
  - intros [= <-]. simpl. apply lookup_delete_eq.
Qed.

Lemma fieldValidate_agrees_with_whole_form_witness :
  errors (fieldValidate_commit "name"
            (Returns (Some {| message := "error" |})) initialState) !! "name"
  = verdict (registry twoFields) (closed twoFields) "name".
Proof.
  apply (fieldValidate_agrees_with_whole_form (registry twoFields) (closed twoFields)
           initialState "name" ∅).
  - apply elem_of_dom. exists (VStr "Bla"). vm_compute. reflexivity.
  - vm_compute. reflexivity.
Defined.

(** X12: the settling of a whole-form validation is all or nothing:
    while some branch of the fan-out has not settled and none has
    rejected, [Settle] changes nothing, not even [loading]; once every
    branch has resolved, in any order, the store gets the outcome of all
    the branches and the validation is no longer in flight; and once a
    branch has rejected (its failure had no conversion to a string),
    the validation leaves flight and nothing is committed, so that the
    store keeps what the start of the validation wrote. *)
Theorem settle_all_or_nothing (w : World) (i : nat) (settings : ValidateSettings)
  (tasks : list (Completion (option FieldResult))) (order : list nat) :
  inflight w !! i = Some (WholeForm settings tasks) ->
  ((exists j, j < length tasks /\ j ∉ order) ->
   (forall k failure, k ∈ order -> tasks !! k <> Some (Throws failure)) ->
   step (Settle i order) w = w)
  /\ (forall results, mapM fulfilled tasks = Some results ->
      (forall j, j < length tasks -> j ∈ order) ->
      store (step (Settle i order) w) = validate_outcome settings results (store w)
      /\ inflight (step (Settle i order) w) = delete i (inflight w))
  /\ (forall k failure, k ∈ order -> tasks !! k = Some (Throws failure) ->
      store (step (Settle i order) w) = store w
      /\ inflight (step (Settle i order) w) = delete i (inflight w)).
Proof.
  intros Hentry. simpl. rewrite Hentry. simpl. split; [|split].
  - intros (j & Hj & Hout) Hnone.
    by rewrite (Promise_all_settled_pending tasks order j).
  - intros results Hresults Hall.
    by rewrite (Promise_all_settled_resolved tasks order results).
  - intros k failure Hin Hk.
    destruct (Promise_all_settled_rejects tasks order k failure Hin Hk) as [failure' ->].
    done.
Qed.

Lemma settle_all_or_nothing_witness :
  let w := step (Validate noSettings) twoFields in
  step (Settle 0 [1]) w = w
  /\ loading (store (step (Settle 0 [1; 0]) w)) = false.
Proof.
  intros w.
  assert (Hentry : inflight w !! 0
    = Some (WholeForm noSettings (fieldValidations (registry twoFields) (closed twoFields))))
    by reflexivity.
  assert (Hresults : mapM fulfilled (fieldValidations (registry twoFields) (closed twoFields))
    = Some (resolutions (registry twoFields) (closed twoFields)))
    by (vm_compute; reflexivity).
  destruct (settle_all_or_nothing w 0 _ _ [1] Hentry) as (Hpending & _ & _).
  destruct (settle_all_or_nothing w 0 _ _ [1; 0] Hentry) as (_ & Hdone & _).
  split.
  - apply Hpending.
    + exists 0. split; [vm_compute; lia|].
      intros Hin. apply list_elem_of_singleton in Hin. discriminate Hin.
    + intros k failure Hin Hk. apply list_elem_of_singleton in Hin. subst k.
      vm_compute in Hk. discriminate Hk.
  - destruct (Hdone _ Hresults) as [Hstore _].
    + intros j Hj. vm_compute in Hj.
      destruct j as [|[|j]]; [by right; left|by left|lia].
    + rewrite Hstore.
      by destruct (validate_outcome_valid noSettings
        (resolutions (registry twoFields) (closed twoFields)) (store w))
        as (_ & _ & Hl & _).
Defined.

(** X13: a form without values validates as valid whatever validators
    are registered: the fan-out runs over the keys of [values], not
    over the registry, so [validate] completes at once with no error. *)
Theorem validate_without_values (fieldValidators : FormFieldValidators)
  (state prevState : FormState) (settings : ValidateSettings) :
  values state = ∅ ->
  exists vrun, validate fieldValidators state settings [] = Some (Returns vrun)
    /\ valid (run_completed vrun prevState) = true
    /\ errors (run_completed vrun prevState) = ∅
    /\ valid (run_returned vrun) = true.
Proof.
  intros Hempty.
  assert (Htasks : fieldValidations fieldValidators state = []).
  { unfold fieldValidations. rewrite Hempty.
    by rewrite (proj2 (Object_keys_nil (∅ : FormValues)) eq_refl). }
  unfold validate. rewrite Htasks. simpl. eexists. split; [reflexivity|].
  simpl. unfold validate_outcome. simpl.
  destruct (makePristine settings); [done|]. by destruct (makeSubmitted settings).
Qed.

Lemma validate_without_values_witness :
  exists vrun,
    validate {[ "name" := Some minLength6 ]} (reset (store twoFields)) noSettings []
    = Some (Returns vrun)
    /\ valid (run_completed vrun (reset (store twoFields))) = true.
Proof.
  destruct (validate_without_values {[ "name" := Some minLength6 ]}
              (reset (store twoFields)) (reset (store twoFields)) noSettings eq_refl)
    as (vrun & Hrun & Hvalid & _).
  exists vrun. split; [exact Hrun|exact Hvalid].
Defined.

(** ** Mounting and unmounting *)

Lemma unmount_store w i inst :
  instances w !! i = Some inst ->
  store (step (Unmount i) w)
  = match cleanupEffect (inst_state inst) (inst_field inst) with
    | Some action => action (store w)
    | None => store w
    end.
Proof.
  intros Hinst. simpl. rewrite Hinst. unfold dispatch_opt.
  by destruct (cleanupEffect _ _).
Qed.

Lemma strict_eq_refl v : v <> VNaN -> strict_eq v v = true.
Proof.
  destruct v as [| |b|n| |s|id|addr cls]; simpl; try done.
  - intros _. by destruct b.
  - intros _. apply Z.eqb_refl.
  - intros _. apply String.eqb_refl.
  - intros _. apply Nat.eqb_refl.
  - intros _. apply Nat.eqb_refl.
Qed.

Lemma reseed_store w field initialValue force :
  store (step (Reseed field initialValue force) w)
  = match seedEffect (store w) field initialValue force with
    | Some action => action (store w)
    | None => store w
    end.
Proof. simpl. unfold dispatch_opt. by destruct (seedEffect _ _ _ _). Qed.

(** X14: in a form reached by any sequence of operations that names
    only fields that no object inherits from [Object.prototype], such a
    field that is not a key of [values] nor of [errors] can mount and
    unmount again and leaves the state exactly as it was: the seeded
    value is pruned and the flags are recomputed to what they were. *)
Theorem mount_unmount_round_trip (ops : list Op) (field : string)
  (initialValue : JsValue) (validator : option FormFieldValidator) (force : bool) :
  let w := run ops initialWorld in
  Forall own_names_op ops ->
  own_name field ->
  field ∉ dom (values (store w)) ->
  field ∉ dom (errors (store w)) ->
  store (run [Mount field initialValue validator force;
              Unmount (length (instances w))] w)
  = store w.
Proof.
  intros w Hops _ Hvalues Herrors.
  assert (Hdirty : dirty_consistent (store w)).
  { apply run_dirty; [|by split].
    eapply Forall_impl; [done|]. apply own_names_assigns_dirty. }
  assert (Hwithin : dirty_within_values (store w)).
  { apply (run_transitions dirty_within_values); [apply transition_dirty_within_values|].
    unfold dirty_within_values. simpl. rewrite dom_empty_L. set_solver. }
  change (run [Mount field initialValue validator force;
               Unmount (length (instances w))] w)
    with (step (Unmount (length (instances w)))
            (step (Mount field initialValue validator force) w)).
  rewrite (unmount_store _ _ {| inst_field := field; inst_state := store w |})
    by (rewrite mount_instance; apply list_lookup_middle; reflexivity).
  rewrite mount_store. unfold cleanupEffect, seedEffect, shouldSeed. simpl.
  rewrite (proj2 (has_key_false _ _) Hvalues). simpl.
  assert (Hnotdirty : dirtyFields (store w) !! field = None).
  { apply not_elem_of_dom. intros Hin. by apply Hvalues, Hwithin. }
  apply not_elem_of_dom in Hvalues, Herrors.
  destruct Hdirty as [Hd Hp]. unfold pruneField, setValue. simpl.
  rewrite delete_insert_id by done. rewrite !delete_id by done.
  assert (Hpristine : no_keys (dirtyFields (store w)) = pristine (store w)).
  { destruct (pristine (store w)) eqn:E.
    - apply no_keys_true. by apply Hp.
    - destruct (no_keys (dirtyFields (store w))) eqn:E'; [|done].
      apply no_keys_true, Hp in E'. congruence. }
  rewrite Hpristine, <- Hd. by destruct (store w).
Qed.

Lemma mount_unmount_round_trip_witness :
  Forall own_names_op
    [Mount "name" (VStr "Bla") (Some minLength6) false;
     SetValue "name" (VStr "Blabla") {| keepPristine := false |}]
  /\ own_name "city"
  /\ store (run [Mount "city" (VStr "Paris") None false;
              Unmount (length (instances
                (run [Mount "name" (VStr "Bla") (Some minLength6) false;
                      SetValue "name" (VStr "Blabla") {| keepPristine := false |}]
                   initialWorld)))]
           (run [Mount "name" (VStr "Bla") (Some minLength6) false;
                 SetValue "name" (VStr "Blabla") {| keepPristine := false |}]
              initialWorld))
  = store (run [Mount "name" (VStr "Bla") (Some minLength6) false;
                SetValue "name" (VStr "Blabla") {| keepPristine := false |}]
             initialWorld).
Proof.
  assert (Hops : Forall own_names_op
    [Mount "name" (VStr "Bla") (Some minLength6) false;
     SetValue "name" (VStr "Blabla") {| keepPristine := false |}])
    by (repeat constructor).
  split; [exact Hops|]. split; [reflexivity|].
  apply (mount_unmount_round_trip
           [Mount "name" (VStr "Bla") (Some minLength6) false;
            SetValue "name" (VStr "Blabla") {| keepPristine := false |}]
           "city" (VStr "Paris") None false Hops).
  - reflexivity.
  - apply not_elem_of_dom. vm_compute. reflexivity.
  - apply not_elem_of_dom. vm_compute. reflexivity.
Defined.

(** X15: the seeding effect settles: run again with the same field and
    initial value right after a mount, it leaves the state as the mount
    left it, and, unless the initial value is NaN, it hands nothing to
    [setState] the second time. *)
Theorem seeding_settles (w : World) (field : string) (initialValue : JsValue)
  (validator : option FormFieldValidator) (force : bool) :
  let mounted := step (Mount field initialValue validator force) w in
  store (step (Reseed field initialValue force) mounted) = store mounted
  /\ (initialValue <> VNaN ->
      seedEffect (store mounted) field initialValue force = None).
Proof.
  intros mounted.
  assert (Hmounted : store mounted
    = match seedEffect (store w) field initialValue force with
      | Some action => action (store w)
      | None => store w
      end) by apply mount_store.
  rewrite reseed_store, Hmounted.
  destruct (seedEffect (store w) field initialValue force) as [action|] eqn:Hfirst.
  - unfold seedEffect in Hfirst. destruct (shouldSeed (store w) _ _ _); [|done].
    injection Hfirst as <-. split.
    + unfold seedEffect. destruct (shouldSeed _ _ _ _); [|done].
      apply setValue_twice.
    + intros Hnan. unfold seedEffect, shouldSeed.
      rewrite setValue_values. unfold has_key, get. rewrite lookup_insert_eq. simpl.
      rewrite strict_eq_refl by done. simpl. by rewrite andb_false_r.
  - rewrite Hfirst. by split.
Qed.

Lemma seeding_settles_witness :
  seedEffect (store (step (Mount "x" someObject None true) mountedX)) "x" someObject true
  = None.
Proof.
  apply (proj2 (seeding_settles mountedX "x" someObject None true)).
  discriminate.
Defined.



(** ** Two components of one field *)

Lemma mountBeside_step w i inst field initialValue validator force :
  instances w !! i = Some inst ->
  store (step (MountBeside i field initialValue validator force) w)
  = match seedEffect (inst_state inst) field initialValue force with
    | Some action => action (store w)
    | None => store w
    end
  /\ registry (step (MountBeside i field initialValue validator force) w)
     = <[field := validator]> (registry w)
  /\ instances (step (MountBeside i field initialValue validator force) w)
     = instances w ++ [{| inst_field := field; inst_state := inst_state inst |}].
Proof.
  intros Hinst. simpl. rewrite Hinst. unfold dispatch_opt.
  by destruct (seedEffect _ _ _ _).
Qed.

(** X24: two components of one field that mount in one render both run
    their seeding effect on the state which that render read: when the
    field was no key of [values], the second seeds it again with its own
    initial value, whatever the guard would say of the value the first
    has just seeded, and its validator replaces the first in the
    registry; each of the two prunes the field when it unmounts. *)
Theorem two_components_one_render (w : World) (field : string)
  (initialValue initialValue' : JsValue)
  (validator validator' : option FormFieldValidator) (force force' : bool) :
  own_name field ->
  field ∉ dom (values (store w)) ->
  let i := length (instances w) in
  let w' := run [Mount field initialValue validator force;
                 MountBeside i field initialValue' validator' force'] w in
  store w' = setValue field initialValue' {| keepPristine := true |}
               (setValue field initialValue {| keepPristine := true |} (store w))
  /\ values (store w') !! field = Some initialValue'
  /\ registry w' !! field = Some validator'
  /\ values (store (step (Unmount i) w')) !! field = None
  /\ values (store (step (Unmount (S i)) w')) !! field = None.
Proof.
  intros _ Hout i w'.
  set (w1 := step (Mount field initialValue validator force) w).
  set (first := {| inst_field := field; inst_state := store w |}).
  assert (Hinsts1 : instances w1 = instances w ++ [first]) by apply mount_instance.
  assert (Hfirst : instances w1 !! i = Some first).
  { rewrite Hinsts1. by apply list_lookup_middle. }
  assert (Hseed : forall iv force0,
    seedEffect (store w) field iv force0
    = Some (setValue field iv {| keepPristine := true |})).
  { intros iv force0. unfold seedEffect, shouldSeed.
    by rewrite (proj2 (has_key_false _ _) Hout). }
  assert (Hstore1 : store w1 = setValue field initialValue {| keepPristine := true |} (store w)).
  { unfold w1. by rewrite mount_store, Hseed. }
  destruct (mountBeside_step w1 i first field initialValue' validator' force' Hfirst)
    as (Hstore & Hregistry & Hinsts).
  change (step (MountBeside i field initialValue' validator' force') w1) with w'
    in Hstore, Hregistry, Hinsts.
  simpl in Hstore. rewrite Hseed, Hstore1 in Hstore.
  assert (Hcleanup : cleanupEffect (store w) field = Some (pruneField field)).
  { unfold cleanupEffect. by rewrite (proj2 (has_key_false _ _) Hout). }
  split; [done|]. split; [by rewrite Hstore, setValue_values, lookup_insert_eq|].
  split; [by rewrite Hregistry, lookup_insert_eq|]. split.
  - rewrite (unmount_store w' i first).
    + simpl. rewrite Hcleanup. simpl. apply lookup_delete_eq.
    + rewrite Hinsts, Hinsts1, <- app_assoc. by apply list_lookup_middle.
  - rewrite (unmount_store w' (S i) first).
    + simpl. rewrite Hcleanup. simpl. apply lookup_delete_eq.
    + rewrite Hinsts, Hinsts1. apply list_lookup_middle.
      rewrite length_app. simpl. lia.
Qed.

Lemma two_components_one_render_witness :
  own_name "x"
  /\ values (store (run [Mount "x" (VStr "a") None false;
                        MountBeside 0 "x" someObject None false] initialWorld)) !! "x"
     = Some someObject.
Proof.
  assert (Hname : own_name "x") by reflexivity.
  split; [exact Hname|].
  apply (two_components_one_render initialWorld "x" (VStr "a") someObject None None
           false false Hname).
  apply not_elem_of_dom. reflexivity.
Defined.

(** ** What a submit does to the store *)








(** ** The registry of validators *)





(** ** Validation and rendering *)

Lemma step_closed op w : is_render op = false -> closed (step op w) = closed w.
Proof.
  intros Hop. destruct op; try done; simpl.
  - unfold dispatch_opt. by destruct (seedEffect _ _ _ _).
  - unfold dispatch_opt. by destruct (seedEffect _ _ _ _).
  - destruct (instances w !! i); [|done]. unfold dispatch_opt.
    by destruct (cleanupEffect _ _).
  - unfold dispatch_opt. by destruct (setValues _ _).
  - by destruct (instances w !! i).
  - destruct (inflight w !! i) as [entry|]; [|done].
    by destruct (commit entry order) as [[action|]|].
  - destruct (instances w !! i); [|done]. unfold dispatch_opt.
    by destruct (seedEffect _ _ _ _).
Qed.

Lemma run_app ops ops' w : run (ops ++ ops') w = run ops' (run ops w).
Proof. apply foldl_app. Qed.

(** X20: the coordinator keeps reading the state of the last render:
    whatever operations run without a render in between, a whole-form
    validation started after them validates the values the coordinator
    closed over before them (so [validate] right after [setValue]
    validates the old value); a render after a [setValue] makes it read
    the new values. *)
Theorem validate_reads_rendered_values (w : World) (ops : list Op)
  (settings : ValidateSettings) :
  forallb (fun op => negb (is_render op)) ops = true ->
  closed (run ops w) = closed w
  /\ inflight (run (ops ++ [Validate settings]) w)
     = inflight (run ops w)
       ++ [WholeForm settings (fieldValidations (registry (run ops w)) (closed w))]
  /\ (forall field value st,
        closed (run [SetValue field value st; Render] w)
        = setValue field value st (store w)).
Proof.
  intros Hops.
  assert (Hclosed : closed (run ops w) = closed w).
  { revert w. induction ops as [|op ops IH]; intros w; [done|].
    simpl in Hops. apply andb_true_iff in Hops as [Hop Hops].
    apply negb_true_iff in Hop. simpl. rewrite IH by done. by apply step_closed. }
  split; [done|]. split; [|reflexivity].
  rewrite run_app. simpl. by rewrite Hclosed.
Qed.

Lemma validate_reads_rendered_values_witness :
  inflight (run ([SetValue "name" (VStr "Blabla") {| keepPristine := false |}]
                 ++ [Validate noSettings]) (mountedName minLength6))
  = [WholeForm noSettings
       [Returns (Some {| key := "name"; error := {| message := "error" |} |})]].
Proof.
  rewrite (proj1 (proj2 (validate_reads_rendered_values (mountedName minLength6)
    [SetValue "name" (VStr "Blabla") {| keepPristine := false |}] noSettings eq_refl))).
  vm_compute. reflexivity.
Defined.

(** ** Making pristine *)


(** ** Loading *)

Lemma seedEffect_loading state field initialValue force action s :
  seedEffect state field initialValue force = Some action ->
  loading (action s) = loading s.
Proof.
  unfold seedEffect. destruct (shouldSeed _ _ _ _); [|done].
  intros [= <-]. unfold setValue. by destruct (keepPristine _).
Qed.

Lemma validating_delete_single (l : list InFlight) i field outcome :
  l !! i = Some (SingleField field outcome) ->
  existsb is_whole_form (delete i l) = existsb is_whole_form l.
Proof.
  intros Hi. rewrite <- (take_drop_middle l i _ Hi) at 2.
  rewrite delete_take_drop, !existsb_app. simpl. done.
Qed.

Lemma inflight_resolves_mono w w' :
  inflight w' `sublist_of` inflight w -> inflight_resolves w -> inflight_resolves w'.
Proof.
  unfold inflight_resolves. intros Hsub Hw settings tasks Hin.
  apply (Hw settings). by eapply elem_of_sublist.
Qed.

Lemma step_inflight_resolves op w :
  converting op w -> inflight_resolves w -> inflight_resolves (step op w).
Proof.
  intros Hop Hw. destruct op; simpl in Hop;
    try (eapply inflight_resolves_mono; [|done]; simpl; done).
  - simpl. by destruct (fresh_values w).
  - simpl. unfold dispatch_opt. by destruct (seedEffect _ _ _ _).
  - simpl. unfold dispatch_opt. by destruct (seedEffect _ _ _ _).
  - simpl. destruct (instances w !! i); [|done]. unfold dispatch_opt.
    by destruct (cleanupEffect _ _).
  - simpl. unfold dispatch_opt. by destruct (setValues _ _).
  - intros settings' tasks Hin. simpl in Hin.
    apply elem_of_app in Hin as [Hin|Hin]; [by eapply Hw|].
    apply list_elem_of_singleton in Hin. injection Hin as -> ->.
    rewrite failures_convert_resolutions by done. by eexists.
  - simpl. destruct (instances w !! i); [|done].
    intros settings tasks Hin. simpl in Hin.
    apply elem_of_app in Hin as [Hin|Hin]; [by eapply Hw|].
    apply list_elem_of_singleton in Hin. discriminate Hin.
  - simpl. destruct (inflight w !! i) as [entry|]; [|done].
    destruct (commit entry order) as [[action|]|]; [| |done];
      (eapply inflight_resolves_mono; [|done]); simpl; apply sublist_delete.
  - simpl. destruct (instances w !! i); [|done]. unfold dispatch_opt.
    by destruct (seedEffect _ _ _ _).
Qed.

Lemma step_loading op w :
  inflight_resolves w ->
  (loading (store w) = true -> validating w = true) ->
  loading (store (step op w)) = true -> validating (step op w) = true.
Proof.
  unfold validating. intros Hresolves Hinv. destruct op; simpl.
  - by destruct (fresh_values w).
  - destruct (seedEffect _ _ _ _) eqn:E; simpl; [|done].
    by rewrite (seedEffect_loading _ _ _ _ _ _ E).
  - destruct (seedEffect _ _ _ _) eqn:E; simpl; [|done].
    by rewrite (seedEffect_loading _ _ _ _ _ _ E).
  - destruct (instances w !! i); [|done]. unfold cleanupEffect.
    destruct (has_key _ _); simpl; done.
  - unfold setValue. by destruct (keepPristine settings).
  - unfold setValues. destruct (length (Object_keys fields) =? 0); [done|]. simpl.
    by destruct (keepPristine settings).
  - done.
  - done.
  - done.
  - done.
  - done.
  - intros _. rewrite existsb_app. simpl. apply orb_true_r.
  - destruct (instances w !! i); [|done]. simpl. intros Hl.
    rewrite existsb_app, Hinv by done. done.
  - destruct (inflight w !! i) as [entry|] eqn:Hentry; [|done].
    destruct entry as [settings tasks|field outcome]; simpl.
    + destruct (Promise_all_settled tasks order) as [[results|failure]|] eqn:Hall;
        simpl; [| |done].
      * destruct (validate_outcome_valid settings results (store w)) as (_ & _ & -> & _).
        done.
      * exfalso. apply Promise_all_settled_Throws in Hall as (k & _ & Hk).
        destruct (Hresolves settings tasks) as [results Hresults].
        { apply list_elem_of_lookup. eauto. }
        rewrite (resolved_lookup _ _ k Hresults) in Hk.
        by destruct (results !! k).
    + rewrite (validating_delete_single _ _ _ _ Hentry).
      by destruct outcome as [[e|]|thrown].
  - destruct (instances w !! i); [|done].
    destruct (seedEffect _ _ _ _) eqn:E; simpl; [|done].
    by rewrite (seedEffect_loading _ _ _ _ _ _ E).
Qed.

(** X22: after every sequence of operations that names only fields
    that no object inherits and in which no validator of a
    whole-form validation fails with a value that has no conversion to
    a string, [loading] is true only while a whole-form validation is
    in flight: once the last one has settled, or after a reset, the
    form no longer shows as loading.  A validation one of whose
    validators rejects with a symbol leaves [loading] true with nothing
    in flight. *)
Theorem loading_means_validating (ops : list Op) :
  (Forall own_names_op ops ->
   converting_run ops initialWorld ->
   let w := run ops initialWorld in
   loading (store w) = true -> validating w = true)
  /\ (let w := run [Validate noSettings; Settle 0 [0]] (mountedName rejectsSymbol) in
      loading (store w) = true /\ inflight w = []).
Proof.
  split; [|split; vm_compute; reflexivity].
  assert (Hgen : forall w0,
    converting_run ops w0 -> inflight_resolves w0 ->
    (loading (store w0) = true -> validating w0 = true) ->
    loading (store (run ops w0)) = true -> validating (run ops w0) = true).
  { induction ops as [|op ops IH]; intros w0 Hops Hres Hw0; [done|].
    destruct Hops as [Hop Hops]. simpl. apply IH; [done| |].
    - by apply step_inflight_resolves.
    - by apply step_loading. }
  intros _ Hops. apply Hgen; [done| |done].
  intros settings tasks Hin. by apply elem_of_nil in Hin.
Qed.

Lemma loading_means_validating_witness :
  let ops := [Mount "name" (VStr "Bla") (Some minLength6) false;
              Render; Validate noSettings] in
  Forall own_names_op ops
  /\ converting_run ops initialWorld /\ validating (run ops initialWorld) = true.
Proof.
  intros ops.
  assert (Hnames : Forall own_names_op ops) by (repeat constructor).
  assert (Hops : converting_run ops initialWorld).
  { split; [exact I|]. split; [exact I|]. split; [|exact I].
    set (w := step Render _).
    assert (Hreg : registry w = {[ "name" := Some minLength6 ]})
      by (vm_compute; reflexivity).
    intros field validator failure _ Hvalidator Hfailure.
    rewrite Hreg in Hvalidator.
    destruct (decide (field = "name")) as [->|Hne].
    - rewrite lookup_singleton_eq in Hvalidator. injection Hvalidator as <-.
      vm_compute in Hfailure. discriminate Hfailure.
    - rewrite lookup_singleton_ne in Hvalidator by done. discriminate Hvalidator. }
  split; [exact Hnames|]. split; [exact Hops|].
  apply (proj1 (loading_means_validating ops) Hnames Hops).
  vm_compute. reflexivity.
Defined.
